(** * binary_to_midi: the pattern-driven nibble encoder of [midi_encoder.py]

    A shallow embedding of [MidiEncoder] (construction, [encode_chunk],
    [_create_message_components], [_create_message_pairs_from_components],
    [_calculate_note_length]) and of the byte chunker of [to_midi.py]
    ([split_byte_to_nibbles], [chunk_data]), and the properties of the
    record assembler.

    Conventions of the embedding
    - Python [int] is [Z]; counters that start at 0 and only grow
      ([message_id], [len(...)], the index of [enumerate]) are [nat].
    - The durations are binary fractions written as decimal literals; they
      are exact in [Q], and no arithmetic is done on them.
    - A [str] is a [string] of 8-bit characters; the alphabet of patterns
      is within ASCII.
    - Exceptions are the [Raise] outcome of a small error monad; a loop
      that would not terminate is the [Diverge] outcome of its fuel.
    - A [set] of [MessageComponent] is a [gmap] from the key that
      [__hash__] and [__eq__] look at to the value stored under it.
    - The [deque] handed to [encode_chunk] is mutated by the callee, so
      [encode_chunk] returns the deque as the caller sees it afterwards,
      next to the encoder object. *)

From Stdlib Require Import ZArith QArith Ascii.
From Stdlib Require String.
From stdpp Require Import gmap list sorting strings.

Local Open Scope Z_scope.

(** ** Outcomes: values, exceptions, divergence *)

Inductive exn : Type :=
  | PatternError
  | NibbleProcessingError
  | IndexError
  | KeyError
  | ValueError
  | ZeroDivisionError.

Inductive outcome (A : Type) : Type :=
  | Ok (a : A)
  | Raise (e : exn)
  | Diverge.

Arguments Ok {A} a.
Arguments Raise {A} e.
Arguments Diverge {A}.

#[global] Instance exn_eq_dec : EqDecision exn.
Proof. solve_decision. Defined.

#[global] Instance outcome_ret : MRet outcome := @Ok.

#[global] Instance outcome_bind : MBind outcome := λ A B f m,
  match m with
  | Ok a => f a
  | Raise e => Raise e
  | Diverge => Diverge
  end.

Definition returns {A} (m : outcome A) : Prop := ∃ a, m = Ok a.

(** ** The data model *)

(** Modelled from the spec: [util.Int4] is not among the sources. The spec
    gives a nibble as an unsigned integer in [0,15]; [int(n)] reads it. *)
Abbreviation Int4 := Z.

Definition int (n : Int4) : Z := n.

Definition is_Int4 (n : Z) : Prop := 0 ≤ n ≤ 15.

Inductive NibbleTarget : Type :=
  | CHANNEL
  | NOTE
  | VELOCITY
  | TIMING
  | LENGTH.

#[global] Instance NibbleTarget_eq_dec : EqDecision NibbleTarget.
Proof. solve_decision. Defined.

Definition NibbleTarget_index (t : NibbleTarget) : nat :=
  match t with
  | CHANNEL => 0 | NOTE => 1 | VELOCITY => 2 | TIMING => 3 | LENGTH => 4
  end%nat.

Definition NibbleTarget_of_index (n : nat) : option NibbleTarget :=
  match n with
  | 0 => Some CHANNEL | 1 => Some NOTE | 2 => Some VELOCITY
  | 3 => Some TIMING | 4 => Some LENGTH | _ => None
  end%nat.

#[global] Program Instance NibbleTarget_countable : Countable NibbleTarget :=
  inj_countable NibbleTarget_index NibbleTarget_of_index _.
Next Obligation. by intros []. Qed.

(** [NibbleTarget(ch)]: the member whose value is [ch], [ValueError] when
    there is none. *)
Definition NibbleTarget_of (ch : ascii) : outcome NibbleTarget :=
  if decide (ch = "c"%char) then Ok CHANNEL
  else if decide (ch = "n"%char) then Ok NOTE
  else if decide (ch = "v"%char) then Ok VELOCITY
  else if decide (ch = "t"%char) then Ok TIMING
  else if decide (ch = "l"%char) then Ok LENGTH
  else Raise ValueError.

Definition NibbleTarget_value (t : NibbleTarget) : ascii :=
  match t with
  | CHANNEL => "c" | NOTE => "n" | VELOCITY => "v" | TIMING => "t"
  | LENGTH => "l"
  end%char.

Record Remainder : Type := mkRemainder {
  bits : string;
  pattern_position : nat
}.

Record MessageComponent : Type := mkMessageComponent {
  message_id : nat;
  component_type : NibbleTarget;
  value : Z
}.

(** [__hash__] and [__eq__] of a [MessageComponent] look at
    [(message_id, component_type)] only, so a Python [set] of components
    holds at most one component per such key: it is a finite map from the
    key to the value of the component stored under it. *)
Definition component_key (c : MessageComponent) : nat * NibbleTarget :=
  (message_id c, component_type c).

Abbreviation component_set := (gmap (nat * NibbleTarget) Z).

(** [s.add(c)]: nothing happens when an equal element is in the set. *)
Definition set_add (c : MessageComponent) (s : component_set) : component_set :=
  match s !! component_key c with
  | Some _ => s
  | None => <[component_key c := value c]> s
  end.

(** [s.remove(c)]. *)
Definition set_remove (c : MessageComponent) (s : component_set) : component_set :=
  delete (component_key c) s.

(** [s.update(t)]: the elements of [s] stay, those of [t] with a new key
    are added. *)
Definition set_update (s t : component_set) : component_set := s ∪ t.

(** A [mido.Message] of type note_on or note_off. *)
Inductive message_type : Type := note_on | note_off.

Record Message : Type := mkMessage {
  msg_type : message_type;
  channel : Z;
  note : Z;
  velocity : Z;
  time : Q
}.

(** [mido.Message(type, channel=, note=, velocity=, time=)]. The library
    checks the channel against 0..15 and the data bytes against 0..127 and
    raises [ValueError] otherwise; the time is any number. *)
Definition mido_Message (ty : message_type) (channel note velocity : Z)
    (time : Q) : outcome Message :=
  if bool_decide (0 ≤ channel ≤ 15) && bool_decide (0 ≤ note ≤ 127)
     && bool_decide (0 ≤ velocity ≤ 127)
  then Ok (mkMessage ty channel note velocity time)
  else Raise ValueError.

Record MidiEncoder : Type := mkMidiEncoder {
  pattern : string
}.

(** The characters of a Python [str], for indexing and [len]. *)
Definition chars (s : string) : list ascii := String.list_ascii_of_string s.

Definition valid_chars : list ascii := chars "cnvtl".

(** ** [MidiEncoder.__init__] *)

Definition MidiEncoder__init__ (pattern : string) : outcome MidiEncoder :=
  if bool_decide (pattern = EmptyString)
     || negb (forallb (λ c, bool_decide (c ∈ valid_chars)) (chars pattern))
  then Raise PatternError
  else Ok (mkMidiEncoder pattern).

(** ** [MidiEncoder._create_message_components] *)

(** The body of the [for i, nibble in enumerate(pattern_nibbles)] loop. *)
Definition component_step (self : MidiEncoder) (message_id : nat)
    (components : component_set) (i : nat) (nibble : Int4) : outcome component_set :=
  ch ← match chars (pattern self) !! i with
       | Some ch => Ok ch
       | None => Raise IndexError
       end;
  target ← NibbleTarget_of ch;
  match components !! (message_id, target) with
  | Some existing =>
      let new_value := Z.lor (Z.shiftl existing 4) (int nibble) in
      Ok (set_add (mkMessageComponent message_id target new_value)
            (set_remove (mkMessageComponent message_id target existing) components))
  | None =>
      Ok (set_add (mkMessageComponent message_id target (int nibble)) components)
  end.

Fixpoint components_loop (self : MidiEncoder) (message_id : nat) (i : nat)
    (pattern_nibbles : list Int4) (components : component_set) : outcome component_set :=
  match pattern_nibbles with
  | [] => Ok components
  | nibble :: rest =>
      components' ← component_step self message_id components i nibble;
      components_loop self message_id (S i) rest components'
  end.

Definition _create_message_components (self : MidiEncoder)
    (pattern_nibbles : list Int4) (message_id : nat) : outcome component_set :=
  components_loop self message_id 0 pattern_nibbles ∅.

(** ** [MidiEncoder._calculate_note_length] *)

Definition note_durations : gmap Z Q :=
  list_to_map
    [ (0, 1%Q); (1, 0.75%Q); (2, 0.5%Q); (3, 0.375%Q); (4, 0.25%Q);
      (5, 0.1875%Q); (6, 0.125%Q); (7, 0.09375%Q); (8, 0.0625%Q);
      (9, 0.046875%Q); (10, 0.03125%Q); (11, 0.0234375%Q);
      (12, 0.015625%Q); (13, 0.01171875%Q); (14, 0.0078125%Q);
      (15, 0.005859375%Q) ].

Definition _calculate_note_length (length_value : Z) : Q :=
  default 1%Q (note_durations !! length_value).

(** ** [MidiEncoder._create_message_pairs_from_components] *)

(** [{c.message_id for c in components}] *)
Definition message_ids (components : component_set) : gset nat :=
  set_map fst (dom components).

(** [sorted(s)] on a set of ints. *)
Definition sorted (s : gset nat) : list nat := merge_sort le (elements s).

(** [NibbleTarget(t) for t in 'cnvtl'] *)
Definition required_targets : list NibbleTarget :=
  [CHANNEL; NOTE; VELOCITY; TIMING; LENGTH].

(** [{c for c in components if c.message_id == mid}] *)
Definition msg_components_of (components : component_set) (mid : nat) : component_set :=
  filter (λ kv, kv.1.1 = mid) components.

(** [{c.component_type for c in msg_components}] *)
Definition component_types (msg_components : component_set) : gset NibbleTarget :=
  set_map snd (dom msg_components).

(** [{c.component_type: c.value for c in msg_components}] *)
Definition params_of (msg_components : component_set) : gmap NibbleTarget Z :=
  list_to_map ((λ kv, (kv.1.2, kv.2)) <$> map_to_list msg_components).

(** [d[k]] *)
Definition getitem (d : gmap NibbleTarget Z) (k : NibbleTarget) : outcome Z :=
  match d !! k with
  | Some v => Ok v
  | None => Raise KeyError
  end.

Definition has_all_required (msg_components : component_set) : bool :=
  forallb (λ t, bool_decide (t ∈ component_types msg_components)) required_targets.

(** The body of the [for mid in sorted(message_ids)] loop: the pair to
    append, if any. *)
Definition message_pair (self : MidiEncoder) (components : component_set)
    (mid : nat) : outcome (option (Message * Message)) :=
  let msg_components := msg_components_of components mid in
  if has_all_required msg_components then
    let params := params_of msg_components in
    c ← getitem params CHANNEL;
    n ← getitem params NOTE;
    v ← getitem params VELOCITY;
    t ← getitem params TIMING;
    on ← mido_Message note_on (c `min` 15) (n `min` 127) (v `min` 127) (inject_Z t);
    l ← getitem params LENGTH;
    off ← mido_Message note_off (c `min` 15) (n `min` 127) 0 (_calculate_note_length l);
    Ok (Some (on, off))
  else Ok None.

Fixpoint pairs_loop (self : MidiEncoder) (components : component_set)
    (mids : list nat) (messages : list (Message * Message))
    : outcome (list (Message * Message)) :=
  match mids with
  | [] => Ok messages
  | mid :: rest =>
      r ← message_pair self components mid;
      pairs_loop self components rest
        (match r with Some p => messages ++ [p] | None => messages end)
  end.

Definition _create_message_pairs_from_components (self : MidiEncoder)
    (components : component_set) : outcome (list (Message * Message)) :=
  pairs_loop self components (sorted (message_ids components)) [].

(** ** [MidiEncoder.encode_chunk] *)

(** The binary digits of a positive number, most significant first. *)
Fixpoint bin_digits (p : positive) : string :=
  match p with
  | xH => "1"
  | xO p' => bin_digits p' +:+ "0"
  | xI p' => bin_digits p' +:+ "1"
  end.

(** Zero padding on the left up to [width] characters. *)
Definition zfill (width : nat) (s : string) : string :=
  String.concat "" (replicate (width - String.length s) "0") +:+ s.

(** [format(n, '04b')]: binary, zero-padded to four characters, the sign
    of a negative number counting as one of them. *)
Definition format_04b (n : Z) : string :=
  match n with
  | Z0 => "0000"
  | Zpos p => zfill 4 (bin_digits p)
  | Zneg p => "-" +:+ zfill 3 (bin_digits p)
  end.

(** [''.join([format(int(n), '04b') for n in nibbles])] *)
Definition remainder_bits (nibbles : list Int4) : string :=
  String.concat "" ((λ n, format_04b (int n)) <$> nibbles).

(** [a % b] on non-negative ints. *)
Definition py_mod (a b : nat) : outcome nat :=
  if decide (b = 0%nat) then Raise ZeroDivisionError else Ok (a `mod` b)%nat.

(** The [while len(nibbles) >= pattern_length] loop. Every turn pops
    [pattern_length] nibbles from the left of the deque; the state is the
    deque, the component set and the next message id. The deque is
    returned also when the loop does not end normally. *)
Fixpoint encode_loop (fuel : nat) (self : MidiEncoder) (nibbles : list Int4)
    (components : component_set) (message_id : nat)
    : outcome component_set * list Int4 :=
  match fuel with
  | O => (Diverge, nibbles)
  | S fuel' =>
      let pattern_length := length (chars (pattern self)) in
      if decide (pattern_length ≤ length nibbles)%nat then
        let current_nibbles := take pattern_length nibbles in
        let nibbles' := drop pattern_length nibbles in
        match _create_message_components self current_nibbles message_id with
        | Ok new_components =>
            encode_loop fuel' self nibbles'
              (set_update components new_components) (S message_id)
        | Raise e => (Raise e, nibbles')
        | Diverge => (Diverge, nibbles')
        end
      else (Ok components, nibbles)
  end.

(** The remainder computed after the loop from what is left in the deque. *)
Definition calculate_remainder (self : MidiEncoder) (nibbles : list Int4)
    (components : component_set) : outcome (option Remainder) :=
  match nibbles with
  | [] => Ok None
  | _ :: _ =>
      let remainder_bits := remainder_bits nibbles in
      position ← py_mod (size components) (length (chars (pattern self)));
      Ok (Some (mkRemainder remainder_bits position))
  end.

(** What the caller holds after a call: the encoder object and the deque. *)
Record call_state : Type := mkState {
  st_encoder : MidiEncoder;
  st_nibbles : list Int4
}.

(** Each turn of the loop pops at least one nibble once the pattern is not
    empty, so [S (length nibbles)] turns always suffice; with an empty
    pattern the loop never ends. *)
Definition encode_chunk (self : MidiEncoder) (nibbles : list Int4)
    : outcome (list (Message * Message) * option Remainder) * call_state :=
  match nibbles with
  | [] => (Raise NibbleProcessingError, mkState self nibbles)
  | _ :: _ =>
      let '(r, nibbles') := encode_loop (S (length nibbles)) self nibbles ∅ 0 in
      (components ← r;
       messages ← _create_message_pairs_from_components self components;
       remainder ← calculate_remainder self nibbles' components;
       Ok (messages, remainder),
       mkState self nibbles')
  end.

(** ** [to_midi.py]: [split_byte_to_nibbles] and [chunk_data] *)

(** Modelled from the spec: the constructor [Int4(v)] of [util.Int4], which
    is not among the sources. On a value in [0,15] it is the nibble of that
    value; [to_midi.py] calls it on masked values only. *)
Definition Int4_new (v : Z) : Int4 := v.

(** [split_byte_to_nibbles(value)] *)
Definition split_byte_to_nibbles (value : Z) : Int4 * Int4 :=
  let value := Z.land value 255 in
  let lower_bits := Int4_new (Z.land value 15) in
  let upper_bits := Int4_new (Z.land (Z.shiftr value 4) 15) in
  (upper_bits, lower_bits).

(** [l[:stop]]: a negative [stop] counts from the end. *)
Definition slice_to {A} (l : list A) (stop : Z) : list A :=
  if decide (0 ≤ stop) then take (Z.to_nat stop) l
  else take (Z.to_nat (Z.of_nat (length l) + stop)) l.

(** [chunk_data(data, chunk_size, num_chunks)]; [data] is a [bytes]
    object, read as the list of its byte values. *)
Definition chunk_data (data : list Z) (chunk_size num_chunks : Z) : list Int4 :=
  let num_chunks :=
    if decide (num_chunks < Z.of_nat (length data)) then num_chunks
    else Z.of_nat (length data) in
  let data := slice_to data (num_chunks * chunk_size) in
  '(x, y) ← split_byte_to_nibbles <$> data; [x; y].

(** ** The encoders of the examples *)

Definition cnvtl : MidiEncoder := mkMidiEncoder "cnvtl".
Definition nn : MidiEncoder := mkMidiEncoder "nn".

Definition seven_for_cnvtl : list Int4 := [0; 3; 12; 4; 0; 1; 2].
Definition eight_for_cnvtl : list Int4 := [0; 3; 12; 4; 0; 3; 1; 2].

(** More encoders and inputs of the examples. *)
Definition cnvtll : MidiEncoder := mkMidiEncoder "cnvtll".
Definition cnvt : MidiEncoder := mkMidiEncoder "cnvt".
Definition thirteen_for_cnvtll : list Int4 :=
  [1; 2; 3; 4; 5; 6; 7; 8; 9; 10; 11; 12; 13].
Definition ten_for_cnvtl : list Int4 := [0; 3; 12; 4; 0; 1; 6; 4; 2; 1].
Definition sample_bytes : list Z := [3; 196; 1; 255; 16; 7].

(** * The vocabulary of the properties *)

(** The pattern of a constructed encoder: not empty, over the alphabet. *)
Definition valid_pattern (p : string) : Prop :=
  p ≠ EmptyString ∧ Forall (λ c, c ∈ valid_chars) (chars p).

(** The field kinds a pattern names, position by position. *)
Definition kind_of_char (ch : ascii) : option NibbleTarget :=
  match NibbleTarget_of ch with
  | Ok t => Some t
  | _ => None
  end.

Definition kinds (self : MidiEncoder) : list NibbleTarget :=
  omap kind_of_char (chars (pattern self)).

(** The value a nibble leaves under its key: merged into the old value if
    there is one, the nibble itself otherwise. *)
Definition merged (old : option Z) (nibble : Z) : Z :=
  match old with
  | Some existing => Z.lor (Z.shiftl existing 4) nibble
  | None => nibble
  end.

Definition merge_step (mid : nat) (cs : component_set)
    (tn : NibbleTarget * Z) : component_set :=
  <[(mid, tn.1) := merged (cs !! (mid, tn.1)) tn.2]> cs.

(** The nibbles of a cycle that fall on kind [t]. *)
Definition nibbles_for (t : NibbleTarget) (tns : list (NibbleTarget * Z)) : list Z :=
  snd <$> filter (λ tn, tn.1 = t) tns.

Definition merge_all (old : option Z) (ns : list Z) : option Z :=
  foldl (λ o n, Some (merged o n)) old ns.

Definition pattern_length (self : MidiEncoder) : nat :=
  length (chars (pattern self)).

(** The number of full cycles a deque holds. *)
Definition cycles (self : MidiEncoder) (ns : list Z) : nat :=
  (length ns / pattern_length self)%nat.

(** The nibbles of cycle [m]. *)
Definition cycle_nibbles (self : MidiEncoder) (ns : list Z) (m : nat) : list Z :=
  take (pattern_length self) (drop (m * pattern_length self) ns).

(** What is left in the deque after the last full cycle. *)
Definition leftover (self : MidiEncoder) (ns : list Z) : list Z :=
  drop (cycles self ns * pattern_length self) ns.

(** The value of the component [(m, t)] of a call, if the call makes one. *)
Definition record_value (self : MidiEncoder) (ns : list Z) (m : nat)
    (t : NibbleTarget) : option Z :=
  if decide (m < cycles self ns)%nat
  then merge_all None (nibbles_for t (zip (kinds self) (cycle_nibbles self ns m)))
  else None.

(** The component set the loop of a call has built when it ends. *)
Definition call_components (self : MidiEncoder) (ns : list Z) : component_set :=
  match (encode_loop (S (length ns)) self ns ∅ 0).1 with
  | Ok components => components
  | _ => ∅
  end.

(** A record is complete when all five kinds have a component. *)
Definition is_complete (cs : component_set) (mid : nat) : bool :=
  has_all_required (msg_components_of cs mid).

(** The pair a complete record with non-negative values gives. *)
Definition start_event (c n v t : Z) : Message :=
  mkMessage note_on (c `min` 15) (n `min` 127) (v `min` 127) (inject_Z t).

Definition end_event (c n l : Z) : Message :=
  mkMessage note_off (c `min` 15) (n `min` 127) 0 (_calculate_note_length l).

(** The values of a component set are non-negative. *)
Definition nonneg_values (cs : component_set) : Prop :=
  ∀ k v, cs !! k = Some v → 0 ≤ v.

(** The record ids whose pairs make the result, in the order of the loop. *)
Definition complete_ids (cs : component_set) : list nat :=
  filter (λ mid, is_complete cs mid) (sorted (message_ids cs)).

(** Record [mid] is the one that produced the pair [p]. *)
Definition produced_by (self : MidiEncoder) (cs : component_set) (mid : nat)
    (p : Message * Message) : Prop :=
  message_pair self cs mid = Ok (Some p).

(** How often kind [t] occurs in a list of kinds. *)
Definition occurrences (t : NibbleTarget) (ts : list NibbleTarget) : nat :=
  length (filter (λ t', t' = t) ts).

(** The number of different kinds a pattern names. *)
Definition distinct_kinds (self : MidiEncoder) : nat :=
  length (remove_dups (kinds self)).

(** The remainder of a call, from the leftover nibbles and the components. *)
Definition remainder_of (self : MidiEncoder) (ns : list Z) : option Remainder :=
  match leftover self ns with
  | [] => None
  | _ :: _ =>
      Some (mkRemainder (remainder_bits (leftover self ns))
              (size (call_components self ns) `mod` pattern_length self))
  end.

Definition not_NPE {A} (m : outcome A) : Prop := m ≠ Raise NibbleProcessingError.

(** The value one cycle of nibbles gives to kind [t]: the merge of the
    nibbles at the positions of [t], none when the pattern has no [t]. *)
Definition cycle_value (self : MidiEncoder) (cyc : list Z) (t : NibbleTarget) : option Z :=
  merge_all None (nibbles_for t (zip (kinds self) cyc)).

(** The event pair of one cycle of nibbles, if its record is complete. *)
Definition cycle_pair (self : MidiEncoder) (cyc : list Z) : option (Message * Message) :=
  c ← cycle_value self cyc CHANNEL;
  n ← cycle_value self cyc NOTE;
  v ← cycle_value self cyc VELOCITY;
  t ← cycle_value self cyc TIMING;
  l ← cycle_value self cyc LENGTH;
  Some (start_event c n v t, end_event c n l).

(** The full cycles of a deque, in the order they are popped. *)
Definition cycle_list (self : MidiEncoder) (ns : list Z) : list (list Z) :=
  cycle_nibbles self ns <$> seq 0 (cycles self ns).

(** What a consumer of the events relies on: a note_on and a note_off on
    the same channel and note, data bytes in the MIDI ranges, velocity 0
    at the end, a non-negative integer start time and a duration in (0,1]. *)
Definition well_formed_pair (p : Message * Message) : Prop :=
  msg_type p.1 = note_on ∧ msg_type p.2 = note_off
  ∧ channel p.2 = channel p.1 ∧ note p.2 = note p.1
  ∧ 0 ≤ channel p.1 ≤ 15 ∧ 0 ≤ note p.1 ≤ 127 ∧ 0 ≤ velocity p.1 ≤ 127
  ∧ velocity p.2 = 0
  ∧ (∃ t : Z, 0 ≤ t ∧ time p.1 = inject_Z t)
  ∧ (0 < time p.2)%Q ∧ (time p.2 <= 1)%Q.

(** A result or the [ValueError] of [mido.Message]. *)
Definition benign {A} (m : outcome A) : Prop :=
  (∃ a, m = Ok a) ∨ m = Raise ValueError.

(** The characters of a bit string. *)
Definition is_bit (ch : ascii) : Prop := ch = "0"%char ∨ ch = "1"%char.

#[global] Instance is_bit_dec (ch : ascii) : Decision (is_bit ch).
Proof. unfold is_bit. apply _. Defined.

Definition bit_value (ch : ascii) : Z := if decide (ch = "1"%char) then 1 else 0.

(** The nibble the first four characters of a bit string spell, and the
    rest of the string. *)
Definition leading_nibble (s : string) : option (Z * string) :=
  match s with
  | String a (String b (String c (String d rest))) =>
      Some (8 * bit_value a + 4 * bit_value b + 2 * bit_value c + bit_value d, rest)
  | _ => None
  end.

(** The values of a [bytes] object. *)
Definition is_byte (b : Z) : Prop := 0 ≤ b ≤ 255.

(** The bytes a sequence of nibbles spells, two nibbles a byte, the high
    one first. *)
Fixpoint join_pairs (ns : list Z) : list Z :=
  match ns with
  | upper :: lower :: rest => (16 * upper + lower) :: join_pairs rest
  | _ => []
  end.

(** Closed instances of the side conditions of the theorems. *)
Ltac solve_valid_pattern :=
  split; [discriminate | unfold chars; simpl; repeat constructor; set_solver].

Ltac solve_Int4 := repeat constructor; unfold is_Int4; lia.

(** The sixteen values of a nibble, one goal each. *)
Ltac Int4_cases n Hn :=
  let H := fresh "Hcase" in
  assert (n ∈ seqZ 0 16) as H by (apply elem_of_seqZ; unfold is_Int4 in Hn; lia);
  vm_compute in H;
  repeat (apply elem_of_cons in H as [->|H]); try (by apply elem_of_nil in H).

(** * Properties *)

(** ** The error monad *)

Lemma bind_Ok {A B} (m : outcome A) (f : A → outcome B) (b : B) :
  m ≫= f = Ok b ↔ ∃ a, m = Ok a ∧ f a = Ok b.
Proof.
  destruct m as [a|e|]; simpl; split.
  - intros H. by exists a.
  - by intros (a' & [= <-] & H).
  - discriminate.
  - intros (a' & H & _). discriminate.
  - discriminate.
  - intros (a' & H & _). discriminate.
Qed.

Lemma bind_Raise {A B} (m : outcome A) (f : A → outcome B) (e : exn) :
  m ≫= f = Raise e ↔ m = Raise e ∨ ∃ a, m = Ok a ∧ f a = Raise e.
Proof.
  destruct m as [a|e'|]; simpl; split.
  - intros H. right. by exists a.
  - intros [H|(a' & [= <-] & H)]; [discriminate | done].
  - intros [= ->]. by left.
  - intros [[= ->]|(a' & H & _)]; [done | discriminate].
  - discriminate.
  - intros [H|(a' & H & _)]; discriminate.
Qed.

(** ** Patterns *)

Lemma valid_char_kind (ch : ascii) :
  ch ∈ valid_chars → ∃ t, NibbleTarget_of ch = Ok t.
Proof.
  unfold valid_chars, chars. simpl. rewrite !elem_of_cons, elem_of_nil.
  intros [->|[->|[->|[->|[->|[]]]]]]; vm_compute; eauto.
Qed.

Lemma NibbleTarget_of_valid (ch : ascii) (t : NibbleTarget) :
  NibbleTarget_of ch = Ok t → ch ∈ valid_chars.
Proof.
  unfold NibbleTarget_of, valid_chars, chars. simpl.
  repeat case_decide; subst; intros; simplify_eq; set_solver.
Qed.

Lemma chars_nil (p : string) : chars p = [] ↔ p = EmptyString.
Proof. destruct p; simpl; split; congruence. Qed.

Lemma kinds_Forall2 (self : MidiEncoder) :
  Forall (λ c, c ∈ valid_chars) (chars (pattern self)) →
  Forall2 (λ ch t, NibbleTarget_of ch = Ok t) (chars (pattern self)) (kinds self).
Proof.
  unfold kinds. induction 1 as [|ch l Hch _ IH]; simpl; [constructor|].
  destruct (valid_char_kind ch Hch) as [t Ht].
  unfold kind_of_char at 1. rewrite Ht. simpl. by constructor.
Qed.

Lemma kinds_length (self : MidiEncoder) :
  valid_pattern (pattern self) →
  length (kinds self) = length (chars (pattern self)).
Proof.
  intros [_ H]. symmetry. eapply Forall2_length, kinds_Forall2, H.
Qed.

Lemma valid_pattern_length (self : MidiEncoder) :
  valid_pattern (pattern self) → (0 < length (chars (pattern self)))%nat.
Proof.
  intros [Hne _]. destruct (chars (pattern self)) eqn:E; simpl; [|lia].
  by apply chars_nil in E.
Qed.

(** ** One cycle: the field accumulator *)

Lemma component_step_merge (self : MidiEncoder) (mid i : nat)
    (cs : component_set) (n : Z) (ch : ascii) (t : NibbleTarget) :
  chars (pattern self) !! i = Some ch →
  NibbleTarget_of ch = Ok t →
  component_step self mid cs i n = Ok (merge_step mid cs (t, n)).
Proof.
  intros Hch Ht. unfold component_step. rewrite Hch. simpl. rewrite Ht. simpl.
  unfold merge_step, set_add, set_remove, component_key, int. simpl.
  destruct (cs !! (mid, t)) as [old|] eqn:E; simpl.
  - rewrite lookup_delete_eq. by rewrite insert_delete_eq.
  - done.
Qed.

Lemma components_loop_fold (self : MidiEncoder) (mid : nat) (ns : list Z) :
  ∀ (i : nat) (ts : list NibbleTarget) (cs : component_set),
    Forall2 (λ ch t, NibbleTarget_of ch = Ok t) (drop i (chars (pattern self))) ts →
    (length ns ≤ length ts)%nat →
    components_loop self mid i ns cs = Ok (foldl (merge_step mid) cs (zip ts ns)).
Proof.
  induction ns as [|n ns IH]; intros i ts cs Hts Hlen.
  - by destruct ts.
  - destruct ts as [|t ts]; simpl in Hlen; [lia|].
    destruct (drop i (chars (pattern self))) as [|ch rest] eqn:Hdrop;
      inversion Hts as [|? ? ? ? Hch Hrest]; subst.
    assert (chars (pattern self) !! i = Some ch) as Hi.
    { rewrite <- (Nat.add_0_r i), <- lookup_drop, Hdrop. done. }
    simpl. rewrite (component_step_merge _ _ _ _ _ ch t Hi Hch). simpl.
    apply IH; [|lia].
    replace (S i) with (1 + i)%nat by done.
    rewrite Nat.add_comm, <- drop_drop, Hdrop. done.
Qed.

Lemma create_components_fold (self : MidiEncoder) (ns : list Z) (mid : nat) :
  valid_pattern (pattern self) →
  (length ns ≤ length (chars (pattern self)))%nat →
  _create_message_components self ns mid
  = Ok (foldl (merge_step mid) ∅ (zip (kinds self) ns)).
Proof.
  intros Hv Hlen. unfold _create_message_components.
  apply components_loop_fold.
  - rewrite drop_0. apply kinds_Forall2, Hv.
  - by rewrite kinds_length.
Qed.

Lemma merge_fold_lookup (mid : nat) (t : NibbleTarget) (tns : list (NibbleTarget * Z)) :
  ∀ cs : component_set,
    foldl (merge_step mid) cs tns !! (mid, t)
    = merge_all (cs !! (mid, t)) (nibbles_for t tns).
Proof.
  induction tns as [|[t' n] tns IH]; intros cs; [done|].
  simpl. rewrite IH. unfold nibbles_for, merge_step. simpl.
  rewrite filter_cons. simpl. destruct (decide (t' = t)) as [->|Hne].
  - simpl. by rewrite lookup_insert_eq.
  - rewrite lookup_insert_ne by congruence. done.
Qed.

Lemma merge_fold_lookup_other (mid m : nat) (t : NibbleTarget)
    (tns : list (NibbleTarget * Z)) :
  m ≠ mid →
  ∀ cs : component_set, foldl (merge_step mid) cs tns !! (m, t) = cs !! (m, t).
Proof.
  intros Hne. induction tns as [|[t' n] tns IH]; intros cs; [done|].
  simpl. rewrite IH. unfold merge_step. simpl.
  rewrite lookup_insert_ne by congruence. done.
Qed.

Lemma merge_all_is_Some (old : option Z) (ns : list Z) :
  is_Some (merge_all old ns) ↔ is_Some old ∨ ns ≠ [].
Proof.
  revert old. induction ns as [|n ns IH]; intros old; simpl.
  - split; [by left | by intros [?|?]].
  - unfold merge_all in *. simpl. rewrite IH. split; [by right | by left].
Qed.

Lemma nibbles_for_nil (t : NibbleTarget) (ts : list NibbleTarget) (ns : list Z) :
  length ts = length ns →
  nibbles_for t (zip ts ns) ≠ [] ↔ t ∈ ts.
Proof.
  revert ns. induction ts as [|t' ts IH]; intros [|n ns] Hlen; simpl in *; try lia.
  - rewrite elem_of_nil. split; [done | by intros []].
  - unfold nibbles_for in *. rewrite filter_cons. simpl.
    rewrite elem_of_cons. destruct (decide (t' = t)) as [->|Hne]; simpl.
    + split; [by left | done].
    + rewrite IH by lia. split; [by right | by intros [?|?]].
Qed.

(** A merge of [k >= 1] nibbles is a [4k]-bit value. *)
Lemma merged_bound (k : nat) (old nibble : Z) :
  0 ≤ old < 2 ^ (4 * Z.of_nat k) → is_Int4 nibble →
  0 ≤ merged (Some old) nibble < 2 ^ (4 * Z.of_nat (S k)).
Proof.
  intros [Hlo Hhi] [Hn0 Hn15]. simpl.
  assert (Z.shiftl old 4 = old * 16) as Hsh by (rewrite Z.shiftl_mul_pow2; lia).
  assert (0 ≤ Z.shiftl old 4 < 2 ^ (4 * Z.of_nat (S k))) as [Hs0 Hs1].
  { rewrite Hsh. replace (4 * Z.of_nat (S k)) with (4 * Z.of_nat k + 4) by lia.
    rewrite Z.pow_add_r by lia. lia. }
  split; [apply Z.lor_nonneg; lia|].
  destruct (decide (Z.lor (Z.shiftl old 4) nibble = 0)) as [->|Hnz].
  { apply Z.pow_pos_nonneg; lia. }
  apply Z.log2_lt_pow2.
  { assert (0 ≤ Z.lor (Z.shiftl old 4) nibble) by (apply Z.lor_nonneg; lia). lia. }
  rewrite Z.log2_lor by lia.
  apply Z.max_lub_lt.
  - destruct (decide (Z.shiftl old 4 = 0)) as [->|?]; [simpl; lia|].
    apply Z.log2_lt_pow2; lia.
  - destruct (decide (nibble = 0)) as [->|?]; [simpl; lia|].
    apply Z.log2_lt_pow2; [lia|].
    assert (2 ^ 4 ≤ 2 ^ (4 * Z.of_nat (S k))) by (apply Z.pow_le_mono_r; lia).
    lia.
Qed.

Lemma merge_all_bound (ns : list Z) :
  Forall is_Int4 ns →
  ∀ (k : nat) (old : Z),
    0 ≤ old < 2 ^ (4 * Z.of_nat k) →
    ∃ v, merge_all (Some old) ns = Some v
         ∧ 0 ≤ v < 2 ^ (4 * Z.of_nat (k + length ns)).
Proof.
  induction 1 as [|n ns Hn _ IH]; intros k old Hold.
  - exists old. by rewrite Nat.add_0_r.
  - unfold merge_all in *. simpl foldl.
    destruct (IH (S k) _ (merged_bound k old n Hold Hn)) as (v & Hv & Hb).
    exists v. split; [done|].
    replace (Z.of_nat (k + length (n :: ns))) with (Z.of_nat (S k + length ns));
      [exact Hb | simpl length; lia].
Qed.

Lemma merge_all_fresh_bound (ns : list Z) :
  Forall is_Int4 ns → ns ≠ [] →
  ∃ v, merge_all None ns = Some v ∧ 0 ≤ v < 2 ^ (4 * Z.of_nat (length ns)).
Proof.
  intros Hns Hne. destruct Hns as [|n ns Hn Hns]; [done|].
  unfold merge_all. simpl foldl.
  apply (merge_all_bound ns Hns 1 n).
  unfold is_Int4 in Hn. simpl. lia.
Qed.

(** ** The loop of [encode_chunk] *)

Lemma cycles_facts (self : MidiEncoder) (ns : list Z) :
  (0 < pattern_length self)%nat →
  (cycles self ns * pattern_length self ≤ length ns)%nat
  ∧ (length ns < S (cycles self ns) * pattern_length self)%nat
  ∧ (length ns - cycles self ns * pattern_length self
     = length ns `mod` pattern_length self)%nat.
Proof.
  intros Hpos. unfold cycles.
  pose proof (Nat.div_mod (length ns) (pattern_length self) ltac:(lia)) as Hdm.
  pose proof (Nat.mod_upper_bound (length ns) (pattern_length self) ltac:(lia)) as Hub.
  nia.
Qed.

Lemma leftover_length (self : MidiEncoder) (ns : list Z) :
  (0 < pattern_length self)%nat →
  length (leftover self ns) = (length ns `mod` pattern_length self)%nat.
Proof.
  intros Hpos. unfold leftover. rewrite length_drop.
  by destruct (cycles_facts self ns Hpos) as (_ & _ & ->).
Qed.

(** The loop of a constructed encoder: its pattern is valid, so every turn
    pops at least one nibble. *)
Section constructed_encoder.

Context (self : MidiEncoder) (Hv : valid_pattern (pattern self)).

Lemma pattern_length_pos : (0 < pattern_length self)%nat.
Proof. apply valid_pattern_length, Hv. Qed.

Lemma encode_loop_run (ns0 : list Z) :
  ∀ (fuel mid : nat) (cs : component_set),
    (mid ≤ cycles self ns0)%nat →
    (cycles self ns0 - mid < fuel)%nat →
    (∀ m t, cs !! (m, t)
            = if decide (m < mid)%nat then record_value self ns0 m t else None) →
    ∃ comps : component_set,
      encode_loop fuel self (drop (mid * pattern_length self) ns0) cs mid
      = (Ok comps, leftover self ns0)
      ∧ ∀ m t, comps !! (m, t) = record_value self ns0 m t.
Proof.
  pose proof pattern_length_pos as Hpos.
  destruct (cycles_facts self ns0 Hpos) as (Hc1 & Hc2 & _).
  induction fuel as [|fuel IH]; intros mid cs Hmid Hfuel Hcs; [lia|].
  simpl. fold (pattern_length self).
  rewrite length_drop. case_decide as Hle.
  - assert (mid < cycles self ns0)%nat as Hlt.
    { destruct (decide (mid < cycles self ns0)%nat) as [|Hge]; [done|].
      assert (mid = cycles self ns0) as Heq by lia.
      rewrite Heq in Hle. rewrite Nat.mul_succ_l in Hc2. lia. }
    rewrite create_components_fold; [|done|].
    2:{ rewrite length_take. fold (pattern_length self). lia. }
    rewrite drop_drop.
    replace (mid * pattern_length self + pattern_length self)%nat
      with (S mid * pattern_length self)%nat by lia.
    apply IH; [lia|lia|].
    intros m t. unfold set_update. rewrite lookup_union, Hcs.
    destruct (decide (m = mid)) as [->|Hne].
    + rewrite merge_fold_lookup, lookup_empty.
      rewrite decide_False by lia. rewrite decide_True by lia.
      unfold record_value. rewrite decide_True by done.
      unfold cycle_nibbles. by rewrite (left_id None _).
    + rewrite merge_fold_lookup_other, lookup_empty by done.
      rewrite (right_id None _).
      destruct (decide (m < mid)%nat); [by rewrite decide_True by lia|].
      by rewrite decide_False by lia.
  - assert (mid = cycles self ns0) as ->.
    { destruct (decide (mid = cycles self ns0)) as [|Hne]; [done|].
      assert (S mid * pattern_length self
              ≤ cycles self ns0 * pattern_length self)%nat
        by (apply Nat.mul_le_mono_r; lia).
      lia. }
    exists cs. split; [done|].
    intros m t. rewrite Hcs. case_decide; [done|].
    unfold record_value. by rewrite decide_False.
Qed.

Lemma encode_loop_call (ns : list Z) :
  encode_loop (S (length ns)) self ns ∅ 0
  = (Ok (call_components self ns), leftover self ns)
  ∧ ∀ m t, call_components self ns !! (m, t) = record_value self ns m t.
Proof.
  pose proof pattern_length_pos as Hpos.
  destruct (cycles_facts self ns Hpos) as (Hc1 & _ & _).
  destruct (encode_loop_run ns (S (length ns)) 0 ∅) as (comps & Hrun & Hval).
  - lia.
  - nia.
  - intros m t. rewrite lookup_empty. by rewrite decide_False by lia.
  - rewrite Nat.mul_0_l, drop_0 in Hrun.
    unfold call_components. rewrite Hrun. done.
Qed.

(** The loop gives the same result for every larger fuel: the bound used
    by [encode_chunk] loses no behaviour of a constructed encoder. *)
Lemma encode_loop_fuel (ns : list Z) (fuel : nat) :
  (cycles self ns < fuel)%nat →
  encode_loop fuel self ns ∅ 0 = encode_loop (S (length ns)) self ns ∅ 0.
Proof.
  intros Hfuel. destruct (encode_loop_call ns) as [-> Hval].
  destruct (encode_loop_run ns fuel 0 ∅) as (comps & Hrun & Hval').
  - lia.
  - lia.
  - intros m t. rewrite lookup_empty. by rewrite decide_False by lia.
  - rewrite Nat.mul_0_l, drop_0 in Hrun. rewrite Hrun. f_equal. f_equal.
    apply map_eq. intros [m t]. by rewrite Hval, Hval'.
Qed.

(** [encode_chunk] of a constructed encoder on a non-empty deque, with the
    loop replaced by what it computes. *)
Lemma encode_chunk_unfold (ns : list Z) :
  ns ≠ [] →
  encode_chunk self ns
  = (messages ← _create_message_pairs_from_components self (call_components self ns);
     remainder ← calculate_remainder self (leftover self ns) (call_components self ns);
     Ok (messages, remainder),
     mkState self (leftover self ns)).
Proof.
  intros Hne. destruct ns as [|n ns]; [done|].
  unfold encode_chunk.
  destruct (encode_loop_call (n :: ns)) as [-> _]. done.
Qed.

End constructed_encoder.

(** ** Finalization *)

Lemma message_ids_spec (cs : component_set) (m : nat) :
  m ∈ message_ids cs ↔ ∃ t, is_Some (cs !! (m, t)).
Proof.
  unfold message_ids. rewrite elem_of_map. split.
  - intros ([m' t] & -> & Hd). exists t. by apply elem_of_dom.
  - intros (t & Ht). exists (m, t). split; [done|]. by apply elem_of_dom.
Qed.

Lemma msg_components_lookup (cs : component_set) (mid m : nat) (t : NibbleTarget) :
  msg_components_of cs mid !! (m, t)
  = if decide (m = mid) then cs !! (m, t) else None.
Proof.
  unfold msg_components_of. rewrite map_lookup_filter.
  destruct (cs !! (m, t)) as [v|]; simpl; [|by case_decide].
  destruct (decide (m = mid)) as [->|Hne].
  - by rewrite option_guard_True.
  - by rewrite option_guard_False.
Qed.

Lemma component_types_spec (cs : component_set) (mid : nat) (t : NibbleTarget) :
  t ∈ component_types (msg_components_of cs mid) ↔ is_Some (cs !! (mid, t)).
Proof.
  unfold component_types. rewrite elem_of_map. split.
  - intros ([m t'] & -> & Hd). apply elem_of_dom in Hd.
    rewrite msg_components_lookup in Hd. simpl.
    destruct (decide (m = mid)) as [->|]; [done | by destruct Hd].
  - intros Ht. exists (mid, t). split; [done|]. apply elem_of_dom.
    rewrite msg_components_lookup. by rewrite decide_True.
Qed.

Lemma params_of_lookup (cs : component_set) (mid : nat) (t : NibbleTarget) :
  params_of (msg_components_of cs mid) !! t = cs !! (mid, t).
Proof.
  unfold params_of.
  set (mc := msg_components_of cs mid).
  assert (∀ k v, (k, v) ∈ map_to_list mc → k.1 = mid ∧ cs !! k = Some v) as Hmc.
  { intros [m t'] v Hin. apply elem_of_map_to_list in Hin.
    unfold mc in Hin. rewrite msg_components_lookup in Hin.
    destruct (decide (m = mid)) as [->|]; [done | discriminate]. }
  assert (NoDup (((λ kv : nat * NibbleTarget * Z, (kv.1.2, kv.2)) <$> map_to_list mc).*1))
    as Hnd.
  { rewrite <- list_fmap_compose. apply NoDup_fmap_2_strong; [|apply NoDup_map_to_list].
    intros [[m1 t1] v1] [[m2 t2] v2] H1 H2 Heq. simpl in Heq. subst t2.
    destruct (Hmc _ _ H1) as [E1 L1], (Hmc _ _ H2) as [E2 L2]. simpl in *. subst.
    congruence. }
  apply option_eq. intros v. rewrite <- elem_of_list_to_map by done.
  rewrite list_elem_of_fmap. split.
  - intros ([[m t'] v'] & [= -> ->] & Hin).
    destruct (Hmc _ _ Hin) as [E L]. simpl in E. by subst.
  - intros Hv. exists ((mid, t), v). split; [done|].
    apply elem_of_map_to_list. unfold mc. rewrite msg_components_lookup.
    by rewrite decide_True.
Qed.

Lemma is_complete_spec (cs : component_set) (mid : nat) :
  is_complete cs mid = true ↔ ∀ t, is_Some (cs !! (mid, t)).
Proof.
  unfold is_complete, has_all_required, required_targets. simpl.
  rewrite !andb_true_iff, !bool_decide_eq_true, !component_types_spec.
  split.
  - intros (? & ? & ? & ? & ? & _) []; done.
  - intros H. repeat split; apply H.
Qed.

Lemma is_complete_false (cs : component_set) (mid : nat) :
  is_complete cs mid = false ↔ ∃ t, cs !! (mid, t) = None.
Proof.
  rewrite <- not_true_iff_false, is_complete_spec. split.
  - intros Hn.
    destruct (cs !! (mid, CHANNEL)) eqn:E1; [|by eexists].
    destruct (cs !! (mid, NOTE)) eqn:E2; [|by eexists].
    destruct (cs !! (mid, VELOCITY)) eqn:E3; [|by eexists].
    destruct (cs !! (mid, TIMING)) eqn:E4; [|by eexists].
    destruct (cs !! (mid, LENGTH)) eqn:E5; [|by eexists].
    destruct Hn. intros []; by eexists.
  - intros (t & Ht) H. specialize (H t). rewrite Ht in H. by destruct H.
Qed.

Lemma message_pair_incomplete (self : MidiEncoder) (cs : component_set) (mid : nat) :
  is_complete cs mid = false → message_pair self cs mid = Ok None.
Proof.
  unfold message_pair, is_complete. by intros ->.
Qed.

Lemma message_pair_complete (self : MidiEncoder) (cs : component_set) (mid : nat)
    (c n v t l : Z) :
  cs !! (mid, CHANNEL) = Some c → cs !! (mid, NOTE) = Some n →
  cs !! (mid, VELOCITY) = Some v → cs !! (mid, TIMING) = Some t →
  cs !! (mid, LENGTH) = Some l →
  message_pair self cs mid
  = (on ← mido_Message note_on (c `min` 15) (n `min` 127) (v `min` 127) (inject_Z t);
     off ← mido_Message note_off (c `min` 15) (n `min` 127) 0 (_calculate_note_length l);
     Ok (Some (on, off))).
Proof.
  intros Hc Hn Hv Ht Hl.
  assert (is_complete cs mid = true) as Hcomp.
  { apply is_complete_spec. intros []; by eexists. }
  unfold message_pair. unfold is_complete in Hcomp. rewrite Hcomp.
  unfold getitem. rewrite !params_of_lookup, Hc, Hn, Hv, Ht, Hl. simpl.
  by destruct (mido_Message note_on _ _ _ _).
Qed.

Lemma mido_Message_ok (ty : message_type) (c n v : Z) (tm : Q) :
  0 ≤ c ≤ 15 → 0 ≤ n ≤ 127 → 0 ≤ v ≤ 127 →
  mido_Message ty c n v tm = Ok (mkMessage ty c n v tm).
Proof.
  intros Hc Hn Hv. unfold mido_Message.
  by rewrite !bool_decide_eq_true_2.
Qed.

Lemma message_pair_events (self : MidiEncoder) (cs : component_set) (mid : nat)
    (c n v t l : Z) :
  cs !! (mid, CHANNEL) = Some c → cs !! (mid, NOTE) = Some n →
  cs !! (mid, VELOCITY) = Some v → cs !! (mid, TIMING) = Some t →
  cs !! (mid, LENGTH) = Some l →
  0 ≤ c → 0 ≤ n → 0 ≤ v →
  message_pair self cs mid = Ok (Some (start_event c n v t, end_event c n l)).
Proof.
  intros Hc Hn Hv Ht Hl Hc0 Hn0 Hv0.
  rewrite (message_pair_complete self cs mid c n v t l) by done.
  rewrite !mido_Message_ok by lia. done.
Qed.

Lemma message_pair_returns (self : MidiEncoder) (cs : component_set) (mid : nat) :
  nonneg_values cs → returns (message_pair self cs mid).
Proof.
  intros Hnn. destruct (is_complete cs mid) eqn:Hcomp.
  - pose proof (proj1 (is_complete_spec cs mid) Hcomp) as Hall.
    destruct (Hall CHANNEL) as [c Hc], (Hall NOTE) as [n Hn],
      (Hall VELOCITY) as [v Hv], (Hall TIMING) as [t Ht], (Hall LENGTH) as [l Hl].
    eexists. apply (message_pair_events self cs mid c n v t l); eauto.
  - eexists. by apply message_pair_incomplete.
Qed.

Lemma message_pair_Some_complete (self : MidiEncoder) (cs : component_set)
    (mid : nat) (p : Message * Message) :
  message_pair self cs mid = Ok (Some p) → is_complete cs mid = true.
Proof.
  intros H. destruct (is_complete cs mid) eqn:E; [done|].
  rewrite message_pair_incomplete in H by done. discriminate.
Qed.

Lemma message_pair_None_incomplete (self : MidiEncoder) (cs : component_set)
    (mid : nat) :
  message_pair self cs mid = Ok None → is_complete cs mid = false.
Proof.
  intros H. destruct (is_complete cs mid) eqn:E; [|done].
  unfold message_pair, is_complete in *. rewrite E in H.
  repeat (apply bind_Ok in H as (? & _ & H)). discriminate.
Qed.

Lemma pairs_loop_inv (self : MidiEncoder) (cs : component_set) (mids : list nat) :
  ∀ acc out,
    pairs_loop self cs mids acc = Ok out →
    ∃ ps, out = acc ++ ps
          ∧ Forall2 (produced_by self cs) (filter (λ mid, is_complete cs mid) mids) ps.
Proof.
  induction mids as [|mid mids IH]; intros acc out Hrun; simpl in Hrun.
  - injection Hrun as <-. exists []. by rewrite app_nil_r.
  - apply bind_Ok in Hrun as (r & Hr & Hrun).
    destruct (IH _ _ Hrun) as (ps & -> & Hps). rewrite filter_cons.
    destruct r as [p|].
    + rewrite decide_True
        by (apply Is_true_true; eapply message_pair_Some_complete, Hr).
      exists (p :: ps). split; [by rewrite <- app_assoc|]. by constructor.
    + rewrite decide_False
        by (apply Is_true_false; eapply message_pair_None_incomplete, Hr).
      by exists ps.
Qed.

Lemma pairs_loop_returns (self : MidiEncoder) (cs : component_set) (mids : list nat) :
  (∀ mid, mid ∈ mids → returns (message_pair self cs mid)) →
  ∀ acc, returns (pairs_loop self cs mids acc).
Proof.
  induction mids as [|mid mids IH]; intros Hall acc; simpl.
  - by eexists.
  - destruct (Hall mid) as [r ->]; [by left|]. simpl.
    apply IH. intros m Hm. apply Hall. by right.
Qed.

Lemma create_pairs_inv (self : MidiEncoder) (cs : component_set)
    (msgs : list (Message * Message)) :
  _create_message_pairs_from_components self cs = Ok msgs →
  Forall2 (produced_by self cs) (complete_ids cs) msgs.
Proof.
  intros H. apply pairs_loop_inv in H as (ps & -> & Hps). done.
Qed.

Lemma create_pairs_returns (self : MidiEncoder) (cs : component_set) :
  nonneg_values cs → returns (_create_message_pairs_from_components self cs).
Proof.
  intros Hnn. apply pairs_loop_returns. intros mid _.
  by apply message_pair_returns.
Qed.

Lemma sorted_elem (s : gset nat) (m : nat) : m ∈ sorted s ↔ m ∈ s.
Proof.
  unfold sorted. by rewrite merge_sort_Permutation, elem_of_elements.
Qed.

Lemma StronglySorted_le_lt (l : list nat) :
  StronglySorted le l → NoDup l → StronglySorted lt l.
Proof.
  induction 1 as [|x l Hs IH Hall]; intros Hnd; [constructor|].
  apply NoDup_cons in Hnd as [Hx Hnd]. constructor; [by apply IH|].
  rewrite Forall_forall in Hall |- *. intros y Hy.
  specialize (Hall y Hy). assert (x ≠ y) by (intros ->; done). lia.
Qed.

Lemma sorted_ascending (s : gset nat) : StronglySorted lt (sorted s).
Proof.
  apply StronglySorted_le_lt.
  - unfold sorted. apply (StronglySorted_merge_sort le).
  - unfold sorted. rewrite merge_sort_Permutation. apply NoDup_elements.
Qed.

Lemma StronglySorted_filter_lt (P : nat → Prop) `{!∀ x, Decision (P x)} (l : list nat) :
  StronglySorted lt l → StronglySorted lt (filter P l).
Proof.
  induction 1 as [|x l Hs IH Hall]; [constructor|].
  rewrite filter_cons. case_decide; [|done].
  constructor; [done|]. rewrite Forall_forall in Hall |- *.
  intros y [_ Hy]%list_elem_of_filter. by apply Hall.
Qed.

Lemma StronglySorted_lt_lookup (l : list nat) :
  StronglySorted lt l →
  ∀ i j a b, (i < j)%nat → l !! i = Some a → l !! j = Some b → (a < b)%nat.
Proof.
  induction 1 as [|x l Hs IH Hall]; intros i j a b Hij Hi Hj; [done|].
  destruct j as [|j]; [lia|]. simpl in Hj. destruct i as [|i]; simpl in Hi.
  - injection Hi as <-. rewrite Forall_forall in Hall. apply Hall.
    by eapply list_elem_of_lookup_2.
  - apply (IH i j); [lia|done..].
Qed.

Lemma complete_ids_ascending (cs : component_set) :
  StronglySorted lt (complete_ids cs).
Proof. apply StronglySorted_filter_lt, sorted_ascending. Qed.

Lemma complete_ids_elem (cs : component_set) (mid : nat) :
  mid ∈ complete_ids cs ↔ ∀ t, is_Some (cs !! (mid, t)).
Proof.
  unfold complete_ids. rewrite list_elem_of_filter, sorted_elem, message_ids_spec.
  rewrite Is_true_true, is_complete_spec. split; [by intros [? _]|].
  intros H. split; [done|]. exists CHANNEL. apply H.
Qed.

(** ** The components of a call *)

Lemma nibbles_for_length (t : NibbleTarget) (ts : list NibbleTarget) :
  ∀ ns : list Z, length ts = length ns →
    length (nibbles_for t (zip ts ns)) = occurrences t ts.
Proof.
  unfold nibbles_for, occurrences.
  induction ts as [|t' ts IH]; intros [|n ns] Hlen; simpl in *; try lia.
  rewrite !filter_cons. simpl. destruct (decide (t' = t)); simpl; rewrite IH; lia.
Qed.

Lemma nibbles_for_Forall (P : Z → Prop) (t : NibbleTarget) (ts : list NibbleTarget) :
  ∀ ns : list Z, Forall P ns → Forall P (nibbles_for t (zip ts ns)).
Proof.
  unfold nibbles_for.
  induction ts as [|t' ts IH]; intros ns Hns; [constructor|].
  destruct Hns as [|n ns Hn Hns]; [constructor|]. simpl.
  rewrite filter_cons. simpl. destruct (decide (t' = t)); simpl; auto.
Qed.

Lemma occurrences_pos (t : NibbleTarget) (ts : list NibbleTarget) :
  (0 < occurrences t ts)%nat ↔ t ∈ ts.
Proof.
  unfold occurrences. induction ts as [|t' ts IH]; simpl.
  - rewrite elem_of_nil. split; [lia | done].
  - rewrite filter_cons, elem_of_cons. destruct (decide (t' = t)) as [->|]; simpl.
    + split; [by left | lia].
    + rewrite IH. split; [by right | by intros [?|?]].
Qed.

Lemma cycle_nibbles_length (self : MidiEncoder) (ns : list Z) (m : nat) :
  (0 < pattern_length self)%nat → (m < cycles self ns)%nat →
  length (cycle_nibbles self ns m) = pattern_length self.
Proof.
  intros Hpos Hm. destruct (cycles_facts self ns Hpos) as (Hc1 & _ & _).
  unfold cycle_nibbles. rewrite length_take, length_drop.
  assert (S m * pattern_length self ≤ cycles self ns * pattern_length self)%nat
    by (apply Nat.mul_le_mono_r; lia).
  rewrite Nat.mul_succ_l in *. lia.
Qed.

Lemma record_value_is_Some (self : MidiEncoder) (ns : list Z) (m : nat)
    (t : NibbleTarget) :
  valid_pattern (pattern self) →
  is_Some (record_value self ns m t)
  ↔ (m < cycles self ns)%nat ∧ t ∈ kinds self.
Proof.
  intros Hv. pose proof (valid_pattern_length self Hv) as Hpos.
  fold (pattern_length self) in Hpos.
  unfold record_value. case_decide as Hm.
  - rewrite merge_all_is_Some, nibbles_for_nil.
    + split; [by intros [[]%is_Some_None|?] | by intros [_ ?]; right].
    + rewrite kinds_length, cycle_nibbles_length by done. done.
  - split; [by intros []%is_Some_None | by intros [? _]].
Qed.

Lemma record_value_bound (self : MidiEncoder) (ns : list Z) (m : nat)
    (t : NibbleTarget) (v : Z) :
  valid_pattern (pattern self) → Forall is_Int4 ns →
  record_value self ns m t = Some v →
  0 ≤ v < 2 ^ (4 * Z.of_nat (occurrences t (kinds self))).
Proof.
  intros Hv Hns Hrv. pose proof (valid_pattern_length self Hv) as Hpos.
  fold (pattern_length self) in Hpos.
  assert (is_Some (record_value self ns m t)) as Hsome by (by eexists).
  apply record_value_is_Some in Hsome as [Hm Ht]; [|done].
  unfold record_value in Hrv. rewrite decide_True in Hrv by done.
  assert (length (kinds self) = length (cycle_nibbles self ns m)) as Hlen
    by (rewrite kinds_length, cycle_nibbles_length; done).
  destruct (merge_all_fresh_bound (nibbles_for t (zip (kinds self) (cycle_nibbles self ns m))))
    as (v' & Hv' & Hb).
  - apply nibbles_for_Forall. unfold cycle_nibbles. by apply Forall_take, Forall_drop.
  - by apply nibbles_for_nil.
  - rewrite Hrv in Hv'. injection Hv' as <-.
    by rewrite nibbles_for_length in Hb.
Qed.

Lemma call_components_nonneg (self : MidiEncoder) (ns : list Z) :
  valid_pattern (pattern self) → Forall is_Int4 ns →
  nonneg_values (call_components self ns).
Proof.
  intros Hv Hns [m t] v Hlk.
  destruct (encode_loop_call self Hv ns) as [_ Hval]. rewrite Hval in Hlk.
  by destruct (record_value_bound self ns m t v Hv Hns Hlk).
Qed.

Lemma NoDup_list_prod {A B} (l : list A) (k : list B) :
  NoDup l → NoDup k → NoDup (list_prod l k).
Proof.
  intros Hl Hk. induction Hl as [|x l Hx Hl IH]; simpl; [constructor|].
  apply NoDup_app. split; [|split; [|done]].
  - apply (NoDup_fmap_2_strong (λ y, (x, y))); [|done].
    by intros y1 y2 _ _ [= ->].
  - intros [a b] Hab Hin. apply list_elem_of_In, in_map_iff in Hab as (y & [= <- <-] & _).
    apply list_elem_of_In, in_prod_iff in Hin as [Hin _].
    by apply list_elem_of_In in Hin.
Qed.

Lemma call_components_dom (self : MidiEncoder) (ns : list Z) :
  valid_pattern (pattern self) →
  dom (call_components self ns)
  = list_to_set (list_prod (seq 0 (cycles self ns)) (remove_dups (kinds self))).
Proof.
  intros Hv. destruct (encode_loop_call self Hv ns) as [_ Hval].
  apply set_eq. intros [m t].
  rewrite elem_of_dom, Hval, record_value_is_Some by done.
  rewrite elem_of_list_to_set. split.
  - intros [Hm Ht]. apply list_elem_of_In, in_prod_iff.
    split; apply list_elem_of_In; [apply elem_of_seq; lia|].
    by apply elem_of_remove_dups.
  - intros [Hm Ht]%list_elem_of_In%in_prod_iff.
    apply list_elem_of_In, elem_of_seq in Hm.
    apply list_elem_of_In in Ht. rewrite elem_of_remove_dups in Ht.
    split; [lia | done].
Qed.

(** A call makes one component per cycle and kind of the pattern. *)
Lemma call_components_size (self : MidiEncoder) (ns : list Z) :
  valid_pattern (pattern self) →
  size (call_components self ns) = (cycles self ns * distinct_kinds self)%nat.
Proof.
  intros Hv. rewrite <- size_dom, call_components_dom by done.
  rewrite size_list_to_set.
  - by rewrite length_prod, length_seq.
  - apply NoDup_list_prod; [apply NoDup_seq | apply NoDup_remove_dups].
Qed.

Lemma NibbleTarget_of_value (ch : ascii) (t : NibbleTarget) :
  NibbleTarget_of ch = Ok t → ch = NibbleTarget_value t.
Proof.
  unfold NibbleTarget_of. repeat case_decide; subst; intros [= <-]; done.
Qed.

Lemma kinds_chars (self : MidiEncoder) :
  valid_pattern (pattern self) →
  chars (pattern self) = NibbleTarget_value <$> kinds self.
Proof.
  intros [_ Hv]. pose proof (kinds_Forall2 self Hv) as H.
  revert H. generalize (kinds self) (chars (pattern self)).
  intros k l H. induction H as [|ch t l k Hch _ IH]; simpl; [done|].
  by rewrite IH, (NibbleTarget_of_value ch t Hch).
Qed.

Lemma remove_dups_NoDup {A} `{EqDecision A} (l : list A) :
  NoDup l → remove_dups l = l.
Proof.
  induction 1 as [|x l Hx Hl IH]; simpl; [done|].
  destruct (decide_rel elem_of x l); [done|]. by rewrite IH.
Qed.

(** A pattern without a repeated symbol names as many kinds as it is long. *)
Lemma distinct_kinds_NoDup (self : MidiEncoder) :
  valid_pattern (pattern self) → NoDup (chars (pattern self)) →
  distinct_kinds self = pattern_length self.
Proof.
  intros Hv Hnd. unfold distinct_kinds, pattern_length.
  rewrite remove_dups_NoDup; [by apply kinds_length|].
  rewrite kinds_chars in Hnd by done. by apply NoDup_fmap_1 in Hnd.
Qed.

Lemma calculate_remainder_valid (self : MidiEncoder) (ns : list Z) :
  valid_pattern (pattern self) →
  calculate_remainder self (leftover self ns) (call_components self ns)
  = Ok (remainder_of self ns).
Proof.
  intros Hv. pose proof (valid_pattern_length self Hv) as Hpos.
  unfold calculate_remainder, remainder_of, py_mod, pattern_length.
  destruct (leftover self ns) as [|n rest]; [done|].
  rewrite decide_False by lia. done.
Qed.

(** A call of a constructed encoder on a non-empty deque: the loop ends,
    the result is the finalization of its components and the remainder of
    its leftover, and the deque keeps the leftover. *)
Lemma encode_chunk_valid (self : MidiEncoder) (ns : list Z) :
  valid_pattern (pattern self) → ns ≠ [] →
  encode_chunk self ns
  = (messages ← _create_message_pairs_from_components self (call_components self ns);
     Ok (messages, remainder_of self ns),
     mkState self (leftover self ns)).
Proof.
  intros Hv Hne. rewrite encode_chunk_unfold by done.
  rewrite calculate_remainder_valid by done. done.
Qed.

Lemma encode_chunk_Int4 (self : MidiEncoder) (ns : list Z) :
  valid_pattern (pattern self) → ns ≠ [] → Forall is_Int4 ns →
  ∃ messages,
    _create_message_pairs_from_components self (call_components self ns) = Ok messages
    ∧ encode_chunk self ns
      = (Ok (messages, remainder_of self ns), mkState self (leftover self ns)).
Proof.
  intros Hv Hne Hns.
  destruct (create_pairs_returns self (call_components self ns)) as [messages Hm].
  { by apply call_components_nonneg. }
  exists messages. split; [done|].
  rewrite encode_chunk_valid by done. by rewrite Hm.
Qed.

Lemma init_valid (p : string) (self : MidiEncoder) :
  MidiEncoder__init__ p = Ok self ↔ valid_pattern p ∧ self = mkMidiEncoder p.
Proof.
  unfold MidiEncoder__init__, valid_pattern.
  destruct (bool_decide (p = EmptyString)) eqn:E1; simpl.
  - apply bool_decide_eq_true in E1. split; [discriminate | by intros [[? _] _]].
  - apply bool_decide_eq_false in E1.
    destruct (forallb _ (chars p)) eqn:E2; simpl.
    + split; [|by intros [_ ->]]. intros [= <-]. split; [|done]. split; [done|].
      apply Forall_forall. intros c Hc%list_elem_of_In.
      rewrite forallb_forall in E2. specialize (E2 c Hc).
      by apply bool_decide_eq_true in E2.
    + split; [discriminate|]. intros [[_ Hall] _].
      assert (forallb (λ c, bool_decide (c ∈ valid_chars)) (chars p) = true) as E3.
      { apply forallb_forall. intros c Hc%list_elem_of_In.
        apply bool_decide_eq_true. rewrite Forall_forall in Hall. by apply Hall. }
      congruence.
Qed.

(** ** No other part of a call raises [NibbleProcessingError] *)

Lemma bind_not_NPE {A B} (m : outcome A) (f : A → outcome B) :
  not_NPE m → (∀ a, not_NPE (f a)) → not_NPE (m ≫= f).
Proof.
  intros Hm Hf. destruct m as [a|e|]; simpl; [apply Hf| |done].
  intros [= ->]. by apply Hm.
Qed.

Lemma component_step_not_NPE (self : MidiEncoder) (mid i : nat)
    (cs : component_set) (n : Z) :
  not_NPE (component_step self mid cs i n).
Proof.
  unfold component_step. apply bind_not_NPE.
  { by destruct (chars (pattern self) !! i). }
  intros ch. apply bind_not_NPE.
  { unfold NibbleTarget_of. by repeat case_decide. }
  intros t. by destruct (cs !! (mid, t)).
Qed.

Lemma components_loop_not_NPE (self : MidiEncoder) (mid : nat) (ns : list Z) :
  ∀ i cs, not_NPE (components_loop self mid i ns cs).
Proof.
  induction ns as [|n ns IH]; intros i cs; simpl; [done|].
  apply bind_not_NPE; [apply component_step_not_NPE | intros; apply IH].
Qed.

Lemma encode_loop_not_NPE (self : MidiEncoder) (fuel : nat) :
  ∀ ns cs mid, not_NPE (encode_loop fuel self ns cs mid).1.
Proof.
  induction fuel as [|fuel IH]; intros ns cs mid; simpl; [done|].
  case_decide; [|done].
  pose proof (components_loop_not_NPE self mid
                (take (length (chars (pattern self))) ns) 0 ∅) as Hc.
  unfold _create_message_components.
  destruct (components_loop _ _ _ _ _) as [new|e|]; simpl; [apply IH|done|done].
Qed.

Lemma message_pair_not_NPE (self : MidiEncoder) (cs : component_set) (mid : nat) :
  not_NPE (message_pair self cs mid).
Proof.
  assert (∀ d k, not_NPE (getitem d k)) as Hget
    by (intros d k; unfold getitem; by destruct (d !! k)).
  assert (∀ ty c n v tm, not_NPE (mido_Message ty c n v tm)) as Hmido
    by (intros; unfold mido_Message; by destruct (_ && _)).
  unfold message_pair. destruct (has_all_required _); [|done].
  repeat (apply bind_not_NPE; [by auto|]; intros ?). done.
Qed.

Lemma pairs_loop_not_NPE (self : MidiEncoder) (cs : component_set) (mids : list nat) :
  ∀ acc, not_NPE (pairs_loop self cs mids acc).
Proof.
  induction mids as [|mid mids IH]; intros acc; simpl; [done|].
  apply bind_not_NPE; [apply message_pair_not_NPE | intros; apply IH].
Qed.

Lemma calculate_remainder_not_NPE (self : MidiEncoder) (ns : list Z)
    (cs : component_set) :
  not_NPE (calculate_remainder self ns cs).
Proof.
  unfold calculate_remainder. destruct ns; [done|].
  apply bind_not_NPE; [|done]. unfold py_mod. by case_decide.
Qed.

(** ** The pairs of a result and the records that produced them *)

Lemma Forall2_produced_elem (self : MidiEncoder) (cs : component_set)
    (ids : list nat) (msgs : list (Message * Message)) (mid : nat)
    (p : Message * Message) :
  Forall2 (produced_by self cs) ids msgs →
  mid ∈ ids → produced_by self cs mid p → p ∈ msgs.
Proof.
  intros HF Hin Hp. apply list_elem_of_lookup in Hin as [i Hi].
  destruct (Forall2_lookup_l _ _ _ _ _ HF Hi) as (q & Hq & Hprod).
  unfold produced_by in *. rewrite Hp in Hprod. injection Hprod as <-.
  by eapply list_elem_of_lookup_2.
Qed.

Lemma encode_chunk_messages (self : MidiEncoder) (ns : list Z)
    (messages : list (Message * Message)) (remainder : option Remainder)
    (st : call_state) :
  valid_pattern (pattern self) →
  encode_chunk self ns = (Ok (messages, remainder), st) →
  ns ≠ []
  ∧ _create_message_pairs_from_components self (call_components self ns) = Ok messages
  ∧ remainder = remainder_of self ns
  ∧ st = mkState self (leftover self ns).
Proof.
  intros Hv Hrun. assert (ns ≠ []) as Hne by (intros ->; discriminate).
  rewrite encode_chunk_valid in Hrun by done.
  injection Hrun as Hres <-.
  apply bind_Ok in Hres as (msgs & Hmsgs & [= <- <-]). done.
Qed.

Lemma occurrences_NoDup (t : NibbleTarget) (ts : list NibbleTarget) :
  NoDup ts → (occurrences t ts ≤ 1)%nat.
Proof.
  induction 1 as [|t' ts Hni Hnd IH]; [unfold occurrences; simpl; lia|].
  unfold occurrences in *. rewrite filter_cons.
  destruct (decide (t' = t)) as [->|]; simpl; [|done].
  pose proof (proj1 (occurrences_pos t ts)) as Hpos.
  unfold occurrences in Hpos.
  destruct (length (filter (λ t', t' = t) ts)); [lia|].
  destruct Hni. apply Hpos. lia.
Qed.

Lemma remainder_of_bits (self : MidiEncoder) (ns : list Z) (r : Remainder) :
  remainder_of self ns = Some r →
  bits r = remainder_bits (leftover self ns)
  ∧ pattern_position r
    = (size (call_components self ns) `mod` pattern_length self)%nat
  ∧ leftover self ns ≠ [].
Proof.
  unfold remainder_of. destruct (leftover self ns) as [|n rest]; [done|].
  by intros [= <-].
Qed.

Lemma remainder_of_None (self : MidiEncoder) (ns : list Z) :
  remainder_of self ns = None ↔ leftover self ns = [].
Proof.
  unfold remainder_of. by destruct (leftover self ns).
Qed.

(** ** A deque shorter than the pattern *)

Lemma call_components_no_cycle (self : MidiEncoder) (ns : list Z) :
  valid_pattern (pattern self) → cycles self ns = 0%nat →
  call_components self ns = ∅.
Proof.
  intros Hv Hc. destruct (encode_loop_call self Hv ns) as [_ Hval].
  apply map_eq. intros [m t]. rewrite Hval, lookup_empty.
  unfold record_value. rewrite decide_False; [done|lia].
Qed.

Lemma create_pairs_empty (self : MidiEncoder) :
  _create_message_pairs_from_components self ∅ = Ok [].
Proof. reflexivity. Qed.

(** With fewer nibbles than the pattern is long there is no cycle: no
    event, all the nibbles in the Remainder, position 0, and the deque as
    it was. *)
Lemma encode_chunk_short (self : MidiEncoder) (ns : list Z) :
  valid_pattern (pattern self) → ns ≠ [] →
  (length ns < pattern_length self)%nat →
  encode_chunk self ns
  = (Ok ([], Some (mkRemainder (remainder_bits ns) 0)), mkState self ns).
Proof.
  intros Hv Hne Hlen.
  assert (cycles self ns = 0%nat) as Hc by (by apply Nat.div_small).
  rewrite encode_chunk_valid by done.
  unfold remainder_of, leftover.
  rewrite call_components_no_cycle, create_pairs_empty, Hc by done. simpl.
  destruct ns as [|n ns]; [done|]. simpl.
  rewrite map_size_empty. rewrite Nat.Div0.mod_0_l. done.
Qed.

(** * The claims *)

(** C1. The encoder constructed with pattern "cnvtl", on the nibbles
    [0,3,12,4,0,1], returns exactly one event pair, the start event
    (channel 0, note 3, velocity 12, time 4) and the end event (channel 0,
    note 3, velocity 0, time 1.0), and a Remainder with bits "0001" and
    pattern_position 0. *)
Theorem C1_cnvtl_example :
  MidiEncoder__init__ "cnvtl" = Ok cnvtl
  ∧ ∃ (start_ev end_ev : Message) (r : Remainder),
      (encode_chunk cnvtl [0; 3; 12; 4; 0; 1]).1
      = Ok ([(start_ev, end_ev)], Some r)
      ∧ msg_type start_ev = note_on ∧ channel start_ev = 0
      ∧ note start_ev = 3 ∧ velocity start_ev = 12 ∧ (time start_ev == 4)%Q
      ∧ msg_type end_ev = note_off ∧ channel end_ev = 0
      ∧ note end_ev = 3 ∧ velocity end_ev = 0 ∧ (time end_ev == 1.0)%Q
      ∧ bits r = "0001" ∧ pattern_position r = 0%nat.
Proof.
  split; [reflexivity|].
  eexists _, _, _. split; [vm_compute; reflexivity|].
  repeat split; reflexivity.
Qed.

(** C2. In a cycle processed under RecordId r, the nibble at position i
    goes to the key (r, pattern[i]): an existing component gets the value
    (old << 4) | nibble, a missing one is created with the nibble as value.
    So a symbol that occurs k times in the pattern yields a 4k-bit value,
    merged from its k nibbles in order, and a pattern with every symbol
    once yields values in [0,15]. *)
Theorem C2_field_accumulator (self : MidiEncoder) (r : nat) :
  (∀ (cs : component_set) (i : nat) (nibble : Z) (ch : ascii) (t : NibbleTarget),
     chars (pattern self) !! i = Some ch → NibbleTarget_of ch = Ok t →
     ∃ cs' : component_set,
       component_step self r cs i nibble = Ok cs'
       ∧ (∀ old, cs !! (r, t) = Some old →
            cs' !! (r, t) = Some (Z.lor (Z.shiftl old 4) nibble))
       ∧ (cs !! (r, t) = None → cs' !! (r, t) = Some nibble)
       ∧ (∀ key, key ≠ (r, t) → cs' !! key = cs !! key))
  ∧ (valid_pattern (pattern self) →
     ∀ nibbles : list Z,
       length nibbles = pattern_length self → Forall is_Int4 nibbles →
       ∃ cs : component_set,
         _create_message_components self nibbles r = Ok cs
         ∧ (∀ t, cs !! (r, t)
                 = merge_all None (nibbles_for t (zip (kinds self) nibbles)))
         ∧ (∀ t k, occurrences t (kinds self) = k → (0 < k)%nat →
              ∃ value, cs !! (r, t) = Some value
                       ∧ 0 ≤ value < 2 ^ (4 * Z.of_nat k))
         ∧ (NoDup (chars (pattern self)) →
            ∀ key value, cs !! key = Some value → 0 ≤ value ≤ 15)).
Proof.
  split.
  - intros cs i nibble ch t Hch Ht.
    exists (merge_step r cs (t, nibble)).
    split; [by apply (component_step_merge self r i cs nibble ch t)|].
    unfold merge_step. simpl. repeat split.
    + intros old Hold. by rewrite lookup_insert_eq, Hold.
    + intros Hnone. by rewrite lookup_insert_eq, Hnone.
    + intros key Hkey. by rewrite lookup_insert_ne.
  - intros Hv nibbles Hlen Hns.
    exists (foldl (merge_step r) ∅ (zip (kinds self) nibbles)).
    assert (length (kinds self) = length nibbles) as Hklen
      by (by rewrite kinds_length, Hlen).
    assert (∀ t, foldl (merge_step r) ∅ (zip (kinds self) nibbles) !! (r, t)
                 = merge_all None (nibbles_for t (zip (kinds self) nibbles))) as Hlk.
    { intros t. by rewrite merge_fold_lookup, lookup_empty. }
    assert (∀ t k, occurrences t (kinds self) = k → (0 < k)%nat →
              ∃ value, foldl (merge_step r) ∅ (zip (kinds self) nibbles) !! (r, t)
                       = Some value
                       ∧ 0 ≤ value < 2 ^ (4 * Z.of_nat k)) as Hbound.
    { intros t k Hk Hpos. rewrite Hlk.
      destruct (merge_all_fresh_bound (nibbles_for t (zip (kinds self) nibbles)))
        as (value & Hvalue & Hb).
      - by apply nibbles_for_Forall.
      - apply nibbles_for_nil; [done|]. apply occurrences_pos. lia.
      - exists value. split; [done|].
        by rewrite nibbles_for_length, Hk in Hb. }
    split; [|split; [|split]].
    + apply create_components_fold; [done|]. unfold pattern_length in Hlen. lia.
    + exact Hlk.
    + exact Hbound.
    + intros Hnd [m t] value Hvalue.
      assert (NoDup (kinds self)) as Hkn.
      { rewrite kinds_chars in Hnd by done. by apply NoDup_fmap_1 in Hnd. }
      destruct (decide (m = r)) as [->|Hne].
      2:{ by rewrite merge_fold_lookup_other, lookup_empty in Hvalue. }
      assert (t ∈ kinds self) as Hin.
      { apply (nibbles_for_nil t (kinds self) nibbles Hklen).
        rewrite Hlk in Hvalue. intros Hnil. by rewrite Hnil in Hvalue. }
      pose proof (occurrences_NoDup t (kinds self) Hkn) as Hle.
      apply occurrences_pos in Hin.
      destruct (Hbound t 1%nat) as (value' & Hvalue' & Hb); [lia|lia|].
      rewrite Hvalue in Hvalue'. injection Hvalue' as <-.
      change (2 ^ (4 * Z.of_nat 1)) with 16 in Hb. lia.
Qed.

Lemma C2_field_accumulator_witness :
  (∃ cs' : component_set,
     component_step nn 0 {[ (0%nat, NOTE) := 3 ]} 1 12 = Ok cs'
     ∧ (∀ old, ({[ (0%nat, NOTE) := 3 ]} : component_set) !! (0%nat, NOTE) = Some old →
          cs' !! (0%nat, NOTE) = Some (Z.lor (Z.shiftl old 4) 12))
     ∧ (({[ (0%nat, NOTE) := 3 ]} : component_set) !! (0%nat, NOTE) = None →
        cs' !! (0%nat, NOTE) = Some 12)
     ∧ (∀ key, key ≠ (0%nat, NOTE) →
          cs' !! key = ({[ (0%nat, NOTE) := 3 ]} : component_set) !! key))
  ∧ (∃ cs : component_set,
       _create_message_components nn [3; 12] 0 = Ok cs
       ∧ (∀ t, cs !! (0%nat, t)
               = merge_all None (nibbles_for t (zip (kinds nn) [3; 12])))
       ∧ (∀ t k, occurrences t (kinds nn) = k → (0 < k)%nat →
            ∃ value, cs !! (0%nat, t) = Some value
                     ∧ 0 ≤ value < 2 ^ (4 * Z.of_nat k))
       ∧ (NoDup (chars (pattern nn)) →
          ∀ key value, cs !! key = Some value → 0 ≤ value ≤ 15)).
Proof.
  split.
  - apply (proj1 (C2_field_accumulator nn 0) {[ (0%nat, NOTE) := 3 ]} 1%nat 12
             "n"%char NOTE); reflexivity.
  - apply (proj2 (C2_field_accumulator nn 0)).
    + solve_valid_pattern.
    + reflexivity.
    + solve_Int4.
Defined.




(** C4. For every complete record of a call, the emitted start event has
    channel = min(CHANNEL, 15), note = min(NOTE, 127), velocity =
    min(VELOCITY, 127), saturating and without an error, and the TIMING
    value unclamped as its time; the end event has the same channel and
    note, velocity 0, and the duration of the unclamped LENGTH value as
    its time. *)
Theorem C4_clamping (self : MidiEncoder) (ns : list Z) (mid : nat)
    (c n v t l : Z) :
  valid_pattern (pattern self) → Forall is_Int4 ns → ns ≠ [] →
  call_components self ns !! (mid, CHANNEL) = Some c →
  call_components self ns !! (mid, NOTE) = Some n →
  call_components self ns !! (mid, VELOCITY) = Some v →
  call_components self ns !! (mid, TIMING) = Some t →
  call_components self ns !! (mid, LENGTH) = Some l →
  ∃ messages remainder,
    (encode_chunk self ns).1 = Ok (messages, remainder)
    ∧ produced_by self (call_components self ns) mid
        (mkMessage note_on (c `min` 15) (n `min` 127) (v `min` 127) (inject_Z t),
         mkMessage note_off (c `min` 15) (n `min` 127) 0 (_calculate_note_length l))
    ∧ (mkMessage note_on (c `min` 15) (n `min` 127) (v `min` 127) (inject_Z t),
       mkMessage note_off (c `min` 15) (n `min` 127) 0 (_calculate_note_length l))
      ∈ messages.
Proof.
  intros Hv Hns Hne Hc Hn Hvel Ht Hl.
  pose proof (call_components_nonneg self ns Hv Hns) as Hnn.
  destruct (encode_chunk_Int4 self ns Hv Hne Hns) as (messages & Hmsgs & Hrun).
  assert (produced_by self (call_components self ns) mid
            (start_event c n v t, end_event c n l)) as Hprod.
  { apply message_pair_events; eauto. }
  exists messages, (remainder_of self ns). rewrite Hrun.
  split; [done|]. split; [exact Hprod|].
  eapply Forall2_produced_elem; [by apply create_pairs_inv| |exact Hprod].
  apply complete_ids_elem. intros []; by eexists.
Qed.

Lemma C4_clamping_witness :
  ∃ messages remainder,
    (encode_chunk (mkMidiEncoder "ccnnnvvvtl") [1; 2; 7; 15; 15; 0; 8; 1; 9; 3]).1
    = Ok (messages, remainder)
    ∧ produced_by (mkMidiEncoder "ccnnnvvvtl")
        (call_components (mkMidiEncoder "ccnnnvvvtl") [1; 2; 7; 15; 15; 0; 8; 1; 9; 3])
        0%nat
        (mkMessage note_on (18 `min` 15) (2047 `min` 127) (129 `min` 127) (inject_Z 9),
         mkMessage note_off (18 `min` 15) (2047 `min` 127) 0 (_calculate_note_length 3))
    ∧ (mkMessage note_on (18 `min` 15) (2047 `min` 127) (129 `min` 127) (inject_Z 9),
       mkMessage note_off (18 `min` 15) (2047 `min` 127) 0 (_calculate_note_length 3))
      ∈ messages.
Proof.
  apply (C4_clamping (mkMidiEncoder "ccnnnvvvtl")
           [1; 2; 7; 15; 15; 0; 8; 1; 9; 3] 0 18 2047 129 9 3).
  - solve_valid_pattern.
  - solve_Int4.
  - discriminate.
  - vm_compute. reflexivity.
  - vm_compute. reflexivity.
  - vm_compute. reflexivity.
  - vm_compute. reflexivity.
  - vm_compute. reflexivity.
Defined.

(** C5. The call raises NibbleProcessingError if and only if the nibble
    sequence is empty on entry, whatever the pattern; the check comes
    before any cycle, so nothing is consumed; for every non-empty input,
    also one shorter than the pattern, the call returns an event list and
    an optional Remainder. *)
Theorem C5_empty_input (self : MidiEncoder) (ns : list Z) :
  ((encode_chunk self ns).1 = Raise NibbleProcessingError ↔ ns = [])
  ∧ (ns = [] →
     encode_chunk self ns = (Raise NibbleProcessingError, mkState self []))
  ∧ (valid_pattern (pattern self) → Forall is_Int4 ns → ns ≠ [] →
     ∃ messages remainder, (encode_chunk self ns).1 = Ok (messages, remainder)).
Proof.
  split; [split|split].
  - intros Hraise. destruct ns as [|n ns]; [done|]. exfalso.
    unfold encode_chunk in Hraise.
    pose proof (encode_loop_not_NPE self (S (length (n :: ns))) (n :: ns) ∅ 0) as Hloop.
    destruct (encode_loop _ _ _ _ _) as [r rest]. simpl in *.
    revert Hraise. apply bind_not_NPE; [done|]. intros comps.
    apply bind_not_NPE; [apply pairs_loop_not_NPE|]. intros msgs.
    apply bind_not_NPE; [apply calculate_remainder_not_NPE | done].
  - by intros ->.
  - by intros ->.
  - intros Hv Hns Hne.
    destruct (encode_chunk_Int4 self ns Hv Hne Hns) as (messages & _ & ->).
    by eexists _, _.
Qed.

Lemma C5_empty_input_witness :
  encode_chunk cnvtl [] = (Raise NibbleProcessingError, mkState cnvtl [])
  ∧ ∃ messages remainder,
      (encode_chunk cnvtl [0; 3; 12]).1 = Ok (messages, remainder).
Proof.
  split.
  - apply (proj1 (proj2 (C5_empty_input cnvtl []))). reflexivity.
  - apply (proj2 (proj2 (C5_empty_input cnvtl [0; 3; 12]))).
    + solve_valid_pattern.
    + solve_Int4.
    + discriminate.
Defined.

(** C6. Construction raises PatternError if and only if the pattern is
    empty or has a symbol outside c, n, v, t, l; for every non-empty
    sequence over these five symbols it succeeds, and the pattern of the
    encoder is the input. *)
Theorem C6_construction (p : string) :
  (MidiEncoder__init__ p = Raise PatternError
   ↔ p = EmptyString ∨ ∃ c, c ∈ chars p ∧ c ∉ chars "cnvtl")
  ∧ (p ≠ EmptyString → Forall (λ c, c ∈ chars "cnvtl") (chars p) →
     ∃ self, MidiEncoder__init__ p = Ok self ∧ pattern self = p).
Proof.
  split.
  - split.
    + intros Hraise.
      destruct (decide (p = EmptyString)) as [|Hne]; [by left|]. right.
      destruct (decide (Forall (λ c, c ∈ valid_chars) (chars p))) as [Hall|Hnot].
      * assert (MidiEncoder__init__ p = Ok (mkMidiEncoder p)) as Hok
          by (by apply init_valid).
        congruence.
      * apply not_Forall_Exists in Hnot; [|apply _].
        apply Exists_exists in Hnot as (c & Hc & Hbad). by exists c.
    + intros Hbad. unfold MidiEncoder__init__.
      destruct Hbad as [->|(c & Hc & Hbad)]; [done|].
      destruct (forallb _ (chars p)) eqn:E; [|by rewrite orb_true_r].
      rewrite forallb_forall in E. apply list_elem_of_In in Hc.
      specialize (E c Hc). by apply bool_decide_eq_true in E.
  - intros Hne Hall. exists (mkMidiEncoder p). split; [|done].
    by apply init_valid.
Qed.

Lemma C6_construction_witness :
  ∃ self, MidiEncoder__init__ "cnvcnvtltl" = Ok self
          ∧ pattern self = "cnvcnvtltl".
Proof.
  apply (proj2 (C6_construction "cnvcnvtltl")).
  - discriminate.
  - unfold chars. simpl. repeat constructor; set_solver.
Defined.

(** C7. The duration lookup maps the length codes 0 to 15 to 1, 0.75, 0.5,
    0.375, 0.25, 0.1875, 0.125, 0.09375, 0.0625, 0.046875, 0.03125,
    0.0234375, 0.015625, 0.01171875, 0.0078125, 0.005859375, a strictly
    decreasing sequence, and every code outside [0,15] to the duration 1 of
    code 0. *)
Theorem C7_duration_table :
  _calculate_note_length <$> [0; 1; 2; 3; 4; 5; 6; 7; 8; 9; 10; 11; 12; 13; 14; 15]
  = [ 1; 0.75; 0.5; 0.375; 0.25; 0.1875; 0.125; 0.09375; 0.0625; 0.046875;
      0.03125; 0.0234375; 0.015625; 0.01171875; 0.0078125; 0.005859375 ]%Q
  ∧ (∀ a b : Z, 0 ≤ a → a < b → b ≤ 15 →
       (_calculate_note_length b < _calculate_note_length a)%Q)
  ∧ (∀ code : Z, ¬ (0 ≤ code ≤ 15) →
       _calculate_note_length code = _calculate_note_length 0
       ∧ _calculate_note_length code = 1%Q).
Proof.
  split; [reflexivity|]. split.
  - intros a b Ha Hab Hb.
    assert (a ∈ seqZ 0 16) as Ha' by (apply elem_of_seqZ; lia).
    assert (b ∈ seqZ 0 16) as Hb' by (apply elem_of_seqZ; lia).
    revert Hab. vm_compute in Ha', Hb'.
    repeat (apply elem_of_cons in Ha' as [->|Ha']);
      try (by apply elem_of_nil in Ha');
      repeat (apply elem_of_cons in Hb' as [->|Hb']);
      try (by apply elem_of_nil in Hb');
      intros Hab; try lia; reflexivity.
  - intros code Hcode.
    assert (note_durations !! code = None) as Hnone.
    { unfold note_durations. simpl.
      rewrite !lookup_insert_ne by lia. apply lookup_empty. }
    unfold _calculate_note_length at 1 3. rewrite Hnone. by split.
Qed.

Lemma C7_duration_table_witness :
  (_calculate_note_length 15 < _calculate_note_length 14)%Q
  ∧ _calculate_note_length 86 = 1%Q.
Proof.
  split.
  - apply (proj1 (proj2 C7_duration_table) 14 15); lia.
  - apply (proj2 (proj2 C7_duration_table) 86). lia.
Defined.

(** C8. The event pairs of a result are ordered by strictly ascending
    RecordId: the pair at position i was produced by the i-th of the
    complete records, and of two positions i < j the first belongs to the
    smaller RecordId. This holds for the finalization of every component
    set, and so for every call. *)
Theorem C8_ascending_record_ids (self : MidiEncoder) :
  (∀ (cs : component_set) (msgs : list (Message * Message)),
     _create_message_pairs_from_components self cs = Ok msgs →
     Forall2 (produced_by self cs) (complete_ids cs) msgs
     ∧ ∀ i j mi mj, (i < j)%nat →
         complete_ids cs !! i = Some mi → complete_ids cs !! j = Some mj →
         (mi < mj)%nat)
  ∧ (∀ (ns : list Z) msgs remainder st,
       valid_pattern (pattern self) →
       encode_chunk self ns = (Ok (msgs, remainder), st) →
       ∃ ids : list nat,
         Forall2 (produced_by self (call_components self ns)) ids msgs
         ∧ ∀ i j mi mj, (i < j)%nat →
             ids !! i = Some mi → ids !! j = Some mj → (mi < mj)%nat).
Proof.
  assert (∀ cs msgs,
            _create_message_pairs_from_components self cs = Ok msgs →
            Forall2 (produced_by self cs) (complete_ids cs) msgs
            ∧ ∀ i j mi mj, (i < j)%nat →
                complete_ids cs !! i = Some mi → complete_ids cs !! j = Some mj →
                (mi < mj)%nat) as Hfin.
  { intros cs msgs Hrun. split; [by apply create_pairs_inv|].
    apply StronglySorted_lt_lookup, complete_ids_ascending. }
  split; [exact Hfin|].
  intros ns msgs remainder st Hv Hrun.
  apply encode_chunk_messages in Hrun as (_ & Hmsgs & _ & _); [|done].
  exists (complete_ids (call_components self ns)). by apply Hfin.
Qed.

Lemma C8_ascending_record_ids_witness :
  ∃ ids : list nat,
    Forall2 (produced_by (mkMidiEncoder "cnvtll")
               (call_components (mkMidiEncoder "cnvtll")
                  [1; 2; 3; 4; 5; 6; 7; 8; 9; 10; 11; 12; 13]))
      ids
      [ (mkMessage note_on 1 2 3 4, mkMessage note_off 1 2 0 1);
        (mkMessage note_on 7 8 9 10, mkMessage note_off 7 8 0 1) ]
    ∧ ∀ i j mi mj, (i < j)%nat →
        ids !! i = Some mi → ids !! j = Some mj → (mi < mj)%nat.
Proof.
  apply (proj2 (C8_ascending_record_ids (mkMidiEncoder "cnvtll"))
           [1; 2; 3; 4; 5; 6; 7; 8; 9; 10; 11; 12; 13]
           _ (Some (mkRemainder "1101" 4))
           (mkState (mkMidiEncoder "cnvtll") [13])).
  - solve_valid_pattern.
  - vm_compute. reflexivity.
Defined.

(** The claim C9 as it is written, at the encoder "cnvtl" and the deque
    [0,3,12,4,0,1]: the call returns normally, and the sixth nibble is
    still in the deque of the caller, which is not drained. *)
Lemma C9_counterexample :
  MidiEncoder__init__ "cnvtl" = Ok cnvtl
  ∧ encode_chunk cnvtl [0; 3; 12; 4; 0; 1]
    = (Ok ([(mkMessage note_on 0 3 12 4, mkMessage note_off 0 3 0 1)],
           Some (mkRemainder "0001" 0)),
       mkState cnvtl [1])
  ∧ st_nibbles (encode_chunk cnvtl [0; 3; 12; 4; 0; 1]).2 ≠ []
  ∧ ¬ (∀ (self : MidiEncoder) (ns : list Z) result st,
         valid_pattern (pattern self) → Forall is_Int4 ns →
         encode_chunk self ns = (Ok result, st) → st_nibbles st = []).
Proof.
  split; [reflexivity|]. split; [vm_compute; reflexivity|].
  split; [vm_compute; discriminate|].
  intros Hdrain.
  specialize (Hdrain cnvtl [0; 3; 12; 4; 0; 1]
                ([(mkMessage note_on 0 3 12 4, mkMessage note_off 0 3 0 1)],
                 Some (mkRemainder "0001" 0))
                (mkState cnvtl [1])).
  simpl in Hdrain. discriminate Hdrain.
  - solve_valid_pattern.
  - solve_Int4.
  - vm_compute. reflexivity.
Qed.

(** C9, amended. A call pops from the deque of the caller the nibbles of
    the full cycles only: when it returns, the deque still holds the
    [length mod pattern length] nibbles behind the last full cycle, and
    the same nibbles are reported as the bits of the Remainder (there is no
    Remainder when none is left). The encoder is the same object with the
    same pattern after the call, so a later call behaves as the first. *)
Theorem C9_deque_after_call (self : MidiEncoder) (ns : list Z) :
  valid_pattern (pattern self) → Forall is_Int4 ns → ns ≠ [] →
  ∃ messages remainder,
    encode_chunk self ns
    = (Ok (messages, remainder),
       mkState self (drop (cycles self ns * pattern_length self) ns))
    ∧ length (drop (cycles self ns * pattern_length self) ns)
      = (length ns `mod` pattern_length self)%nat
    ∧ (remainder = None ↔ drop (cycles self ns * pattern_length self) ns = [])
    ∧ (∀ r, remainder = Some r →
         bits r = remainder_bits (drop (cycles self ns * pattern_length self) ns))
    ∧ (∀ ns', encode_chunk (st_encoder (encode_chunk self ns).2) ns'
              = encode_chunk self ns').
Proof.
  intros Hv Hns Hne.
  destruct (encode_chunk_Int4 self ns Hv Hne Hns) as (messages & Hmsgs & Hrun).
  exists messages, (remainder_of self ns). rewrite Hrun.
  split; [done|]. split.
  { apply leftover_length. by apply valid_pattern_length. }
  split; [apply remainder_of_None|]. split; [|done].
  intros r Hr. by apply remainder_of_bits in Hr as [-> _].
Qed.

Lemma C9_deque_after_call_witness :
  ∃ messages remainder,
    encode_chunk cnvtl seven_for_cnvtl
    = (Ok (messages, remainder),
       mkState cnvtl
         (drop (cycles cnvtl seven_for_cnvtl * pattern_length cnvtl)
            seven_for_cnvtl))
    ∧ length (drop (cycles cnvtl seven_for_cnvtl * pattern_length cnvtl)
                seven_for_cnvtl)
      = (length seven_for_cnvtl `mod` pattern_length cnvtl)%nat
    ∧ (remainder = None
       ↔ drop (cycles cnvtl seven_for_cnvtl * pattern_length cnvtl)
           seven_for_cnvtl = [])
    ∧ (∀ r, remainder = Some r →
         bits r
         = remainder_bits
             (drop (cycles cnvtl seven_for_cnvtl * pattern_length cnvtl)
                seven_for_cnvtl))
    ∧ (∀ ns', encode_chunk
                (st_encoder (encode_chunk cnvtl seven_for_cnvtl).2) ns'
              = encode_chunk cnvtl ns').
Proof.
  apply (C9_deque_after_call cnvtl seven_for_cnvtl).
  - solve_valid_pattern.
  - solve_Int4.
  - discriminate.
Defined.

(** C10. When a call returns a Remainder, its pattern_position is the
    number of distinct (RecordId, FieldKind) components made during the
    call modulo the pattern length; there is one component for every cycle
    and every kind the pattern names, so with a pattern of pairwise
    distinct symbols every Remainder has pattern_position 0, whatever the
    input and wherever in a cycle the data ran out. *)
Theorem C10_pattern_position (self : MidiEncoder) (ns : list Z)
    (messages : list (Message * Message)) (r : Remainder) (st : call_state) :
  valid_pattern (pattern self) →
  encode_chunk self ns = (Ok (messages, Some r), st) →
  pattern_position r
  = (size (dom (call_components self ns)) `mod` pattern_length self)%nat
  ∧ (∀ m t, (m, t) ∈ dom (call_components self ns)
            ↔ (m < cycles self ns)%nat ∧ t ∈ kinds self)
  ∧ size (dom (call_components self ns))
    = (cycles self ns * distinct_kinds self)%nat
  ∧ (NoDup (chars (pattern self)) → pattern_position r = 0%nat).
Proof.
  intros Hv Hrun.
  apply encode_chunk_messages in Hrun as (Hne & _ & Hrem & _); [|done].
  symmetry in Hrem. apply remainder_of_bits in Hrem as (_ & Hpos & _).
  destruct (encode_loop_call self Hv ns) as [_ Hval].
  rewrite size_dom, Hpos. split; [done|]. split.
  { intros m t. by rewrite elem_of_dom, Hval, record_value_is_Some. }
  split; [by apply call_components_size|].
  intros Hnd. rewrite call_components_size, distinct_kinds_NoDup by done.
  apply Nat.Div0.mod_mul.
Qed.

Lemma C10_pattern_position_witness :
  ∃ messages r st,
    encode_chunk cnvtl eight_for_cnvtl = (Ok (messages, Some r), st)
    ∧ pattern_position r
      = (size (dom (call_components cnvtl eight_for_cnvtl))
         `mod` pattern_length cnvtl)%nat
    ∧ size (dom (call_components cnvtl eight_for_cnvtl))
      = (cycles cnvtl eight_for_cnvtl * distinct_kinds cnvtl)%nat
    ∧ pattern_position r = 0%nat.
Proof.
  assert (valid_pattern (pattern cnvtl)) as Hv.
  { solve_valid_pattern. }
  assert (encode_chunk cnvtl eight_for_cnvtl
          = (Ok ([(mkMessage note_on 0 3 12 4, mkMessage note_off 0 3 0 1)],
                 Some (mkRemainder "001100010010" 0)),
             mkState cnvtl [3; 1; 2])) as Hrun
    by (vm_compute; reflexivity).
  destruct (C10_pattern_position cnvtl eight_for_cnvtl _ _ _ Hv Hrun)
    as (Hpos & _ & Hsize & Hzero).
  eexists _, _, _. split; [exact Hrun|]. split; [exact Hpos|].
  split; [exact Hsize|]. apply Hzero.
  apply (bool_decide_unpack _). vm_compute. exact I.
Defined.

(** * Further properties *)

(** ** Lemmas on the cycles of a call, the remainder bits and the bytes *)

Lemma pairs_loop_omap (self : MidiEncoder) (cs : component_set)
    (f : nat → option (Message * Message)) (mids : list nat) :
  (∀ mid, mid ∈ mids → message_pair self cs mid = Ok (f mid)) →
  ∀ acc, pairs_loop self cs mids acc = Ok (acc ++ omap f mids).
Proof.
  induction mids as [|mid mids IH]; intros Hall acc; simpl.
  - by rewrite app_nil_r.
  - rewrite (Hall mid) by (by left). simpl.
    rewrite IH by (intros m Hm; apply Hall; by right).
    destruct (f mid) as [p|]; simpl; [by rewrite <- app_assoc | done].
Qed.

Lemma seq_StronglySorted (j n : nat) : StronglySorted lt (seq j n).
Proof.
  revert j. induction n as [|n IH]; intros j; simpl; constructor; [apply IH|].
  apply Forall_forall. intros x Hx%elem_of_seq. lia.
Qed.

Lemma sorted_call_ids (self : MidiEncoder) (ns : list Z) :
  valid_pattern (pattern self) →
  sorted (message_ids (call_components self ns)) = seq 0 (cycles self ns).
Proof.
  intros Hv. destruct (encode_loop_call self Hv ns) as [_ Hval].
  apply (StronglySorted_unique_strong lt).
  - intros x1 x2 _ _ ? ?. lia.
  - apply sorted_ascending.
  - apply seq_StronglySorted.
  - apply NoDup_Permutation.
    + unfold sorted. rewrite merge_sort_Permutation. apply NoDup_elements.
    + apply NoDup_seq.
    + intros m. rewrite sorted_elem, message_ids_spec, elem_of_seq. split.
      * intros (t & Ht). rewrite Hval in Ht.
        apply record_value_is_Some in Ht as [? _]; [lia|done].
      * intros [_ Hm]. destruct (kinds self) as [|t ts] eqn:Hk.
        { pose proof (kinds_length self Hv) as Hl.
          pose proof (valid_pattern_length self Hv). rewrite Hk in Hl. simpl in Hl. lia. }
        exists t. rewrite Hval. apply record_value_is_Some; [done|].
        split; [lia|]. rewrite Hk. by left.
Qed.

Lemma call_component_value (self : MidiEncoder) (ns : list Z) (m : nat)
    (t : NibbleTarget) :
  valid_pattern (pattern self) → (m < cycles self ns)%nat →
  call_components self ns !! (m, t) = cycle_value self (cycle_nibbles self ns m) t.
Proof.
  intros Hv Hm. destruct (encode_loop_call self Hv ns) as [_ ->].
  unfold record_value, cycle_value. by rewrite decide_True.
Qed.

Lemma message_pair_cycle (self : MidiEncoder) (ns : list Z) (m : nat) :
  valid_pattern (pattern self) → Forall is_Int4 ns → (m < cycles self ns)%nat →
  message_pair self (call_components self ns) m
  = Ok (cycle_pair self (cycle_nibbles self ns m)).
Proof.
  intros Hv Hns Hm.
  pose proof (call_components_nonneg self ns Hv Hns) as Hnn.
  pose proof (λ t, call_component_value self ns m t Hv Hm) as Hval.
  unfold cycle_pair.
  destruct (cycle_value self _ CHANNEL) as [c|] eqn:Ec; simpl.
  2:{ apply message_pair_incomplete, is_complete_false. exists CHANNEL. by rewrite Hval. }
  destruct (cycle_value self _ NOTE) as [n|] eqn:En; simpl.
  2:{ apply message_pair_incomplete, is_complete_false. exists NOTE. by rewrite Hval. }
  destruct (cycle_value self _ VELOCITY) as [v|] eqn:Ev; simpl.
  2:{ apply message_pair_incomplete, is_complete_false. exists VELOCITY. by rewrite Hval. }
  destruct (cycle_value self _ TIMING) as [t|] eqn:Et; simpl.
  2:{ apply message_pair_incomplete, is_complete_false. exists TIMING. by rewrite Hval. }
  destruct (cycle_value self _ LENGTH) as [l|] eqn:El; simpl.
  2:{ apply message_pair_incomplete, is_complete_false. exists LENGTH. by rewrite Hval. }
  apply message_pair_events; rewrite ?Hval; try done.
  - apply (Hnn (m, CHANNEL)). by rewrite Hval.
  - apply (Hnn (m, NOTE)). by rewrite Hval.
  - apply (Hnn (m, VELOCITY)). by rewrite Hval.
Qed.

Lemma create_pairs_cycles (self : MidiEncoder) (ns : list Z) :
  valid_pattern (pattern self) → Forall is_Int4 ns →
  _create_message_pairs_from_components self (call_components self ns)
  = Ok (omap (cycle_pair self) (cycle_list self ns)).
Proof.
  intros Hv Hns. unfold _create_message_pairs_from_components.
  rewrite sorted_call_ids by done.
  rewrite (pairs_loop_omap _ _ (λ m, cycle_pair self (cycle_nibbles self ns m))).
  - simpl. f_equal. unfold cycle_list.
    generalize (seq 0 (cycles self ns)). intros l.
    induction l as [|m l IH]; [done|].
    csimpl. rewrite IH. done.
  - intros m [_ Hm]%elem_of_seq. by apply message_pair_cycle.
Qed.

Lemma encode_chunk_cycles (self : MidiEncoder) (ns : list Z) :
  valid_pattern (pattern self) → Forall is_Int4 ns → ns ≠ [] →
  encode_chunk self ns
  = (Ok (omap (cycle_pair self) (cycle_list self ns), remainder_of self ns),
     mkState self (leftover self ns)).
Proof.
  intros Hv Hns Hne. rewrite encode_chunk_valid by done.
  by rewrite create_pairs_cycles.
Qed.

Lemma NibbleTarget_value_inj (t1 t2 : NibbleTarget) :
  NibbleTarget_value t1 = NibbleTarget_value t2 → t1 = t2.
Proof. by destruct t1, t2. Qed.

Lemma kinds_elem (self : MidiEncoder) (t : NibbleTarget) :
  valid_pattern (pattern self) →
  t ∈ kinds self ↔ NibbleTarget_value t ∈ chars (pattern self).
Proof.
  intros Hv. rewrite (kinds_chars self Hv), list_elem_of_fmap. split.
  - intros Ht. by exists t.
  - intros (t' & Heq & Ht'). by apply NibbleTarget_value_inj in Heq as ->.
Qed.

Lemma cycle_value_is_Some (self : MidiEncoder) (cyc : list Z) (t : NibbleTarget) :
  length (kinds self) = length cyc →
  is_Some (cycle_value self cyc t) ↔ t ∈ kinds self.
Proof.
  intros Hlen. unfold cycle_value.
  rewrite merge_all_is_Some, nibbles_for_nil by done.
  split; [by intros [[]%is_Some_None|?] | by right].
Qed.

Lemma cycle_pair_is_Some (self : MidiEncoder) (cyc : list Z) :
  length (kinds self) = length cyc →
  is_Some (cycle_pair self cyc) ↔ ∀ t, t ∈ kinds self.
Proof.
  intros Hlen.
  pose proof (λ t, cycle_value_is_Some self cyc t Hlen) as Hs.
  unfold cycle_pair. split.
  - intros Hp t. apply Hs.
    destruct (cycle_value self cyc CHANNEL) eqn:E1; [|by destruct Hp].
    destruct (cycle_value self cyc NOTE) eqn:E2; [|by destruct Hp].
    destruct (cycle_value self cyc VELOCITY) eqn:E3; [|by destruct Hp].
    destruct (cycle_value self cyc TIMING) eqn:E4; [|by destruct Hp].
    destruct (cycle_value self cyc LENGTH) eqn:E5; [|by destruct Hp].
    destruct t; by eexists.
  - intros Hall.
    destruct (proj2 (Hs CHANNEL) (Hall _)) as [c ->].
    destruct (proj2 (Hs NOTE) (Hall _)) as [n ->].
    destruct (proj2 (Hs VELOCITY) (Hall _)) as [v ->].
    destruct (proj2 (Hs TIMING) (Hall _)) as [t ->].
    destruct (proj2 (Hs LENGTH) (Hall _)) as [l ->].
    by eexists.
Qed.

Lemma cycle_list_elem (self : MidiEncoder) (ns cyc : list Z) :
  cyc ∈ cycle_list self ns ↔
  ∃ m, (m < cycles self ns)%nat ∧ cyc = cycle_nibbles self ns m.
Proof.
  unfold cycle_list. rewrite list_elem_of_fmap. split.
  - intros (m & -> & Hm%elem_of_seq). exists m. split; [lia|done].
  - intros (m & Hm & ->). exists m. split; [done|]. apply elem_of_seq. lia.
Qed.

Lemma cycle_list_lengths (self : MidiEncoder) (ns cyc : list Z) :
  valid_pattern (pattern self) → cyc ∈ cycle_list self ns →
  length (kinds self) = length cyc.
Proof.
  intros Hv (m & Hm & ->)%cycle_list_elem.
  rewrite kinds_length, cycle_nibbles_length; [done| |done|done].
  by apply pattern_length_pos.
Qed.

Lemma omap_all_Some {A B} (f : A → option B) (l : list A) :
  (∀ x, x ∈ l → is_Some (f x)) → length (omap f l) = length l.
Proof.
  induction l as [|x l IH]; intros Hall; [done|]. csimpl.
  destruct (Hall x) as [y ->]; [by left|]. simpl. f_equal.
  apply IH. intros y' Hy'. apply Hall. by right.
Qed.

Lemma omap_all_None {A B} (f : A → option B) (l : list A) :
  (∀ x, x ∈ l → f x = None) → omap f l = [].
Proof.
  induction l as [|x l IH]; intros Hall; [done|]. csimpl.
  rewrite (Hall x) by (by left). apply IH. intros y Hy. apply Hall. by right.
Qed.

Lemma cycle_list_length (self : MidiEncoder) (ns : list Z) :
  length (cycle_list self ns) = cycles self ns.
Proof. unfold cycle_list. by rewrite length_fmap, length_seq. Qed.

Lemma cycle_pairs_count (self : MidiEncoder) (ns : list Z) :
  valid_pattern (pattern self) →
  ((∀ t, t ∈ kinds self) →
   length (omap (cycle_pair self) (cycle_list self ns)) = cycles self ns)
  ∧ (∀ t, t ∉ kinds self → omap (cycle_pair self) (cycle_list self ns) = []).
Proof.
  intros Hv. split.
  - intros Hall. rewrite omap_all_Some, cycle_list_length; [done|].
    intros cyc Hcyc. apply cycle_pair_is_Some; [|done].
    by eapply cycle_list_lengths.
  - intros t Ht. apply omap_all_None. intros cyc Hcyc.
    destruct (cycle_pair self cyc) eqn:E; [|done].
    destruct Ht. eapply cycle_pair_is_Some; [by eapply cycle_list_lengths|].
    by rewrite E.
Qed.

Lemma cycles_app (self : MidiEncoder) (ns1 ns2 : list Z) (k : nat) :
  (0 < pattern_length self)%nat →
  length ns1 = (k * pattern_length self)%nat →
  cycles self ns1 = k ∧ cycles self (ns1 ++ ns2) = (k + cycles self ns2)%nat.
Proof.
  intros Hpos Hlen. unfold cycles. rewrite length_app, Hlen. split.
  - apply Nat.div_mul. lia.
  - apply Nat.div_add_l. lia.
Qed.

Lemma cycle_list_app (self : MidiEncoder) (ns1 ns2 : list Z) (k : nat) :
  (0 < pattern_length self)%nat →
  length ns1 = (k * pattern_length self)%nat →
  cycle_list self (ns1 ++ ns2) = cycle_list self ns1 ++ cycle_list self ns2.
Proof.
  intros Hpos Hlen. destruct (cycles_app self ns1 ns2 k Hpos Hlen) as [Hc1 Hc].
  unfold cycle_list. rewrite Hc, Hc1, seq_app, fmap_app. f_equal.
  - apply list_eq. intros i. rewrite !list_lookup_fmap.
    destruct (seq 0 k !! i) as [m|] eqn:Hm; [|done]. simpl. f_equal.
    apply lookup_seq in Hm as [-> Hi]. simpl.
    unfold cycle_nibbles.
    assert (S i * pattern_length self ≤ k * pattern_length self)%nat
      by (apply Nat.mul_le_mono_r; lia).
    rewrite drop_app_le by lia. rewrite take_app_le; [done|].
    rewrite length_drop. lia.
  - simpl. rewrite <- (Nat.add_0_r k) at 1. rewrite <- fmap_add_seq, <- list_fmap_compose.
    apply list_eq. intros i. rewrite !list_lookup_fmap.
    destruct (seq 0 (cycles self ns2) !! i) as [m|] eqn:Hm; [|done]. simpl. f_equal.
    unfold cycle_nibbles.
    rewrite drop_app_ge by (rewrite Hlen; apply Nat.mul_le_mono_r; lia).
    do 2 f_equal. rewrite Hlen. lia.
Qed.

Lemma leftover_app (self : MidiEncoder) (ns1 ns2 : list Z) (k : nat) :
  (0 < pattern_length self)%nat →
  length ns1 = (k * pattern_length self)%nat →
  leftover self ns1 = [] ∧ leftover self (ns1 ++ ns2) = leftover self ns2.
Proof.
  intros Hpos Hlen. destruct (cycles_app self ns1 ns2 k Hpos Hlen) as [Hc1 Hc].
  unfold leftover. rewrite Hc, Hc1. split.
  - apply drop_ge. lia.
  - rewrite drop_app_ge by (rewrite Hlen; apply Nat.mul_le_mono_r; lia).
    f_equal. rewrite Hlen. lia.
Qed.

Lemma note_length_default (code : Z) :
  ¬ (0 ≤ code ≤ 15) → _calculate_note_length code = 1%Q.
Proof.
  intros Hcode. unfold _calculate_note_length, note_durations. simpl.
  rewrite !lookup_insert_ne by lia. by rewrite lookup_empty.
Qed.

Lemma note_length_range (code : Z) :
  (0 < _calculate_note_length code)%Q ∧ (_calculate_note_length code <= 1)%Q.
Proof.
  destruct (decide (0 ≤ code ≤ 15)) as [Hin|Hout].
  - assert (code ∈ seqZ 0 16) as Hc by (apply elem_of_seqZ; lia).
    vm_compute in Hc.
    repeat (apply elem_of_cons in Hc as [->|Hc]); try (by apply elem_of_nil in Hc);
      split; vm_compute; congruence.
  - rewrite note_length_default by done. split; vm_compute; congruence.
Qed.

Lemma cycle_pair_well_formed (self : MidiEncoder) (ns : list Z) (m : nat)
    (p : Message * Message) :
  valid_pattern (pattern self) → Forall is_Int4 ns → (m < cycles self ns)%nat →
  cycle_pair self (cycle_nibbles self ns m) = Some p →
  well_formed_pair p.
Proof.
  intros Hv Hns Hm Hp.
  pose proof (call_components_nonneg self ns Hv Hns) as Hnn.
  pose proof (λ t, call_component_value self ns m t Hv Hm) as Hval.
  unfold cycle_pair in Hp.
  destruct (cycle_value self _ CHANNEL) as [c|] eqn:Ec; [|done].
  destruct (cycle_value self _ NOTE) as [n|] eqn:En; [|done].
  destruct (cycle_value self _ VELOCITY) as [v|] eqn:Ev; [|done].
  destruct (cycle_value self _ TIMING) as [t|] eqn:Et; [|done].
  destruct (cycle_value self _ LENGTH) as [l|] eqn:El; [|done].
  simpl in Hp. injection Hp as <-.
  assert (0 ≤ c) by (apply (Hnn (m, CHANNEL)); by rewrite Hval).
  assert (0 ≤ n) by (apply (Hnn (m, NOTE)); by rewrite Hval).
  assert (0 ≤ v) by (apply (Hnn (m, VELOCITY)); by rewrite Hval).
  assert (0 ≤ t) by (apply (Hnn (m, TIMING)); by rewrite Hval).
  destruct (note_length_range l) as [Hl0 Hl1].
  unfold well_formed_pair, start_event, end_event. simpl.
  repeat split; try lia; try done. by exists t.
Qed.

Lemma encode_chunk_well_formed (self : MidiEncoder) (ns : list Z) :
  valid_pattern (pattern self) → Forall is_Int4 ns →
  Forall well_formed_pair (omap (cycle_pair self) (cycle_list self ns)).
Proof.
  intros Hv Hns. apply Forall_forall. intros p Hp.
  apply list_elem_of_omap in Hp as (cyc & Hcyc & Hp).
  apply cycle_list_elem in Hcyc as (m & Hm & ->).
  by eapply cycle_pair_well_formed.
Qed.

Lemma mido_Message_benign (ty : message_type) (c n v : Z) (tm : Q) :
  benign (mido_Message ty c n v tm).
Proof. unfold mido_Message. destruct (_ && _); [left; by eexists | by right]. Qed.

Lemma message_pair_benign (self : MidiEncoder) (cs : component_set) (mid : nat) :
  benign (message_pair self cs mid).
Proof.
  destruct (is_complete cs mid) eqn:Hcomp.
  - pose proof (proj1 (is_complete_spec cs mid) Hcomp) as Hall.
    destruct (Hall CHANNEL) as [c Hc], (Hall NOTE) as [n Hn],
      (Hall VELOCITY) as [v Hv], (Hall TIMING) as [t Ht], (Hall LENGTH) as [l Hl].
    rewrite (message_pair_complete self cs mid c n v t l) by done.
    destruct (mido_Message_benign note_on (c `min` 15) (n `min` 127) (v `min` 127) (inject_Z t))
      as [[on ->]| ->]; simpl; [|by right].
    destruct (mido_Message_benign note_off (c `min` 15) (n `min` 127) 0 (_calculate_note_length l))
      as [[off ->]| ->]; simpl; [left; by eexists | by right].
  - rewrite message_pair_incomplete by done. left. by eexists.
Qed.

Lemma pairs_loop_benign (self : MidiEncoder) (cs : component_set) (mids : list nat) :
  ∀ acc, benign (pairs_loop self cs mids acc).
Proof.
  induction mids as [|mid mids IH]; intros acc; simpl; [left; by eexists|].
  destruct (message_pair_benign self cs mid) as [[r ->]| ->]; simpl; [apply IH | by right].
Qed.

Lemma encode_chunk_benign (self : MidiEncoder) (ns : list Z) :
  valid_pattern (pattern self) → ns ≠ [] → benign (encode_chunk self ns).1.
Proof.
  intros Hv Hne. rewrite encode_chunk_valid by done. simpl.
  destruct (pairs_loop_benign self (call_components self ns)
              (sorted (message_ids (call_components self ns))) []) as [[msgs Hm]|Hm];
    unfold _create_message_pairs_from_components; rewrite Hm; simpl;
    [left; by eexists | by right].
Qed.

Lemma merged_nonneg (old : option Z) (n : Z) :
  (∀ v, old = Some v → 0 ≤ v) → 0 ≤ n → 0 ≤ merged old n.
Proof.
  intros Hold Hn. destruct old as [v|]; simpl; [|done].
  apply Z.lor_nonneg. split; [|done]. apply Z.shiftl_nonneg. by apply Hold.
Qed.

Lemma merge_all_nonneg (ns : list Z) :
  Forall (λ n, 0 ≤ n) ns →
  ∀ old v, (∀ w, old = Some w → 0 ≤ w) → merge_all old ns = Some v → 0 ≤ v.
Proof.
  induction 1 as [|n ns Hn _ IH]; intros old v Hold Hv.
  - by apply Hold.
  - unfold merge_all in *. simpl in Hv. eapply IH; [|exact Hv].
    intros w [= <-]. by apply merged_nonneg.
Qed.

Lemma call_components_nonneg_gen (self : MidiEncoder) (ns : list Z) :
  valid_pattern (pattern self) → Forall (λ n, 0 ≤ n) ns →
  nonneg_values (call_components self ns).
Proof.
  intros Hv Hns [m t] v Hlk.
  destruct (encode_loop_call self Hv ns) as [_ Hval]. rewrite Hval in Hlk.
  unfold record_value in Hlk. case_decide; [|done].
  eapply merge_all_nonneg; [| |exact Hlk]; [|done].
  apply nibbles_for_Forall. unfold cycle_nibbles. by apply Forall_take, Forall_drop.
Qed.

Lemma encode_chunk_nonneg_returns (self : MidiEncoder) (ns : list Z) :
  valid_pattern (pattern self) → Forall (λ n, 0 ≤ n) ns → ns ≠ [] →
  ∃ messages remainder, (encode_chunk self ns).1 = Ok (messages, remainder).
Proof.
  intros Hv Hns Hne. rewrite encode_chunk_valid by done. simpl.
  destruct (create_pairs_returns self (call_components self ns)) as [msgs ->].
  { by apply call_components_nonneg_gen. }
  by eexists _, _.
Qed.

Lemma string_app_cons (a : ascii) (s t : string) :
  String a s +:+ t = String a (s +:+ t).
Proof. reflexivity. Qed.

Lemma string_app_nil_r (s : string) : s +:+ "" = s.
Proof. induction s as [|a s IH]; [done|]. by rewrite string_app_cons, IH. Qed.

Lemma string_length_app (s1 s2 : string) :
  String.length (s1 +:+ s2) = (String.length s1 + String.length s2)%nat.
Proof.
  induction s1 as [|a s1 IH]; [done|]. rewrite string_app_cons. simpl. by rewrite IH.
Qed.

Lemma remainder_bits_cons (n : Z) (ns : list Z) :
  remainder_bits (n :: ns) = format_04b n +:+ remainder_bits ns.
Proof.
  unfold remainder_bits, int. simpl. destruct ns as [|n' ns]; simpl.
  - by rewrite string_app_nil_r.
  - done.
Qed.

Lemma leading_nibble_format (n : Z) (rest : string) :
  is_Int4 n → leading_nibble (format_04b n +:+ rest) = Some (n, rest).
Proof. intros Hn. Int4_cases n Hn; reflexivity. Qed.

Lemma format_04b_length (n : Z) :
  is_Int4 n → String.length (format_04b n) = 4%nat.
Proof. intros Hn. Int4_cases n Hn; reflexivity. Qed.

Lemma format_04b_bits (n : Z) :
  is_Int4 n → Forall is_bit (String.list_ascii_of_string (format_04b n)).
Proof.
  intros Hn. Int4_cases n Hn; apply (bool_decide_unpack _); vm_compute; exact I.
Qed.

Lemma remainder_bits_length (ns : list Z) :
  Forall is_Int4 ns → String.length (remainder_bits ns) = (4 * length ns)%nat.
Proof.
  induction 1 as [|n ns Hn _ IH]; [done|].
  rewrite remainder_bits_cons, string_length_app, format_04b_length, IH by done.
  simpl. lia.
Qed.

Lemma list_ascii_app (s1 s2 : string) :
  String.list_ascii_of_string (s1 +:+ s2)
  = String.list_ascii_of_string s1 ++ String.list_ascii_of_string s2.
Proof.
  induction s1 as [|a s1 IH]; [done|]. rewrite string_app_cons. simpl. by rewrite IH.
Qed.

Lemma remainder_bits_alphabet (ns : list Z) :
  Forall is_Int4 ns → Forall is_bit (String.list_ascii_of_string (remainder_bits ns)).
Proof.
  induction 1 as [|n ns Hn _ IH]; [constructor|].
  rewrite remainder_bits_cons, list_ascii_app. apply Forall_app. split; [|done].
  by apply format_04b_bits.
Qed.

Lemma remainder_bits_inj (ns1 ns2 : list Z) :
  Forall is_Int4 ns1 → Forall is_Int4 ns2 →
  remainder_bits ns1 = remainder_bits ns2 → ns1 = ns2.
Proof.
  intros H1. revert ns2. induction H1 as [|n1 ns1 Hn1 _ IH]; intros ns2 H2 Heq.
  - destruct H2 as [|n2 ns2 Hn2 _]; [done|]. exfalso.
    assert (leading_nibble (remainder_bits []) = leading_nibble (remainder_bits (n2 :: ns2)))
      as Hl by (by rewrite Heq).
    rewrite remainder_bits_cons, leading_nibble_format in Hl by done. discriminate.
  - destruct H2 as [|n2 ns2 Hn2 H2].
    + exfalso.
      assert (leading_nibble (remainder_bits (n1 :: ns1)) = leading_nibble (remainder_bits []))
        as Hl by (by rewrite Heq).
      rewrite remainder_bits_cons, leading_nibble_format in Hl by done. discriminate.
    + assert (leading_nibble (remainder_bits (n1 :: ns1))
              = leading_nibble (remainder_bits (n2 :: ns2))) as Hl by (by rewrite Heq).
      rewrite !remainder_bits_cons, !leading_nibble_format in Hl by done.
      injection Hl as -> Hrest. f_equal. by apply IH.
Qed.

Lemma split_byte_spec (value : Z) :
  is_Int4 (split_byte_to_nibbles value).1
  ∧ is_Int4 (split_byte_to_nibbles value).2
  ∧ 16 * (split_byte_to_nibbles value).1 + (split_byte_to_nibbles value).2
    = value `mod` 256.
Proof.
  unfold split_byte_to_nibbles, Int4_new, is_Int4. simpl.
  change 255 with (Z.ones 8). change 15 with (Z.ones 4).
  rewrite !Z.land_ones by lia. rewrite Z.shiftr_div_pow2 by lia.
  change (2 ^ 8) with 256. change (2 ^ 4) with 16.
  pose proof (Z.mod_pos_bound value 256 ltac:(lia)) as Hv.
  set (v := value `mod` 256) in *.
  pose proof (Z.mod_pos_bound v 16 ltac:(lia)) as Hl.
  pose proof (Z.div_mod v 16 ltac:(lia)) as Hdm.
  assert (0 ≤ v `div` 16 < 16) as Hu.
  { split; [apply Z.div_pos; lia | apply Z.div_lt_upper_bound; lia]. }
  rewrite (Z.mod_small (v `div` 16)) by lia.
  change (Z.ones 4) with 15. clearbody v. lia.
Qed.

Lemma chunk_data_unfold (data : list Z) (chunk_size num_chunks : Z) :
  chunk_data data chunk_size num_chunks
  = '(x, y) ← split_byte_to_nibbles
                <$> slice_to data (Z.min num_chunks (Z.of_nat (length data)) * chunk_size);
    [x; y].
Proof.
  unfold chunk_data. case_decide.
  - by rewrite Z.min_l by lia.
  - by rewrite Z.min_r by lia.
Qed.

Lemma nibbles_cons (b : Z) (bs : list Z) :
  ('(x, y) ← split_byte_to_nibbles <$> (b :: bs); [x; y])
  = (split_byte_to_nibbles b).1 :: (split_byte_to_nibbles b).2
    :: ('(x, y) ← split_byte_to_nibbles <$> bs; [x; y]).
Proof. reflexivity. Qed.

Lemma nibbles_Int4 (bs : list Z) :
  Forall is_Int4 ('(x, y) ← split_byte_to_nibbles <$> bs; [x; y]).
Proof.
  induction bs as [|b bs IH]; [constructor|]. rewrite nibbles_cons.
  destruct (split_byte_spec b) as (Hu & Hl & _).
  by repeat apply Forall_cons_2.
Qed.

Lemma nibbles_length (bs : list Z) :
  length ('(x, y) ← split_byte_to_nibbles <$> bs; [x; y]) = (2 * length bs)%nat.
Proof.
  induction bs as [|b bs IH]; [done|]. rewrite nibbles_cons.
  simpl length. rewrite IH. lia.
Qed.

Lemma join_pairs_cons (upper lower : Z) (rest : list Z) :
  join_pairs (upper :: lower :: rest) = (16 * upper + lower) :: join_pairs rest.
Proof. reflexivity. Qed.

Lemma nibbles_join (bs : list Z) :
  join_pairs ('(x, y) ← split_byte_to_nibbles <$> bs; [x; y])
  = (λ b, b `mod` 256) <$> bs.
Proof.
  induction bs as [|b bs IH]; [done|]. rewrite nibbles_cons.
  destruct (split_byte_spec b) as (_ & _ & Hj).
  rewrite join_pairs_cons, IH, Hj. done.
Qed.

Lemma bytes_mod (bs : list Z) :
  Forall is_byte bs → (λ b, b `mod` 256) <$> bs = bs.
Proof.
  induction 1 as [|b bs Hb _ IH]; [done|]. csimpl.
  rewrite IH, Z.mod_small; [done|]. unfold is_byte in Hb. lia.
Qed.

Lemma slice_to_Forall {A} (P : A → Prop) (l : list A) (stop : Z) :
  Forall P l → Forall P (slice_to l stop).
Proof. intros H. unfold slice_to. case_decide; by apply Forall_take. Qed.

Lemma chunk_data_Int4 (data : list Z) (chunk_size num_chunks : Z) :
  Forall is_Int4 (chunk_data data chunk_size num_chunks).
Proof. rewrite chunk_data_unfold. apply nibbles_Int4. Qed.

Lemma chunk_data_join (data : list Z) (chunk_size num_chunks : Z) :
  Forall is_byte data →
  join_pairs (chunk_data data chunk_size num_chunks)
  = slice_to data (Z.min num_chunks (Z.of_nat (length data)) * chunk_size).
Proof.
  intros Hb. rewrite chunk_data_unfold, nibbles_join.
  by apply bytes_mod, slice_to_Forall.
Qed.

Lemma chunk_data_length (data : list Z) (chunk_size num_chunks : Z) :
  length (chunk_data data chunk_size num_chunks)
  = (2 * length (slice_to data (Z.min num_chunks (Z.of_nat (length data)) * chunk_size)))%nat.
Proof. rewrite chunk_data_unfold. apply nibbles_length. Qed.

Lemma slice_to_nonneg {A} (l : list A) (stop : Z) :
  0 ≤ stop → slice_to l stop = take (Z.to_nat stop) l.
Proof. intros H. unfold slice_to. by rewrite decide_True. Qed.

Lemma slice_to_neg {A} (l : list A) (stop : Z) :
  stop < 0 → slice_to l stop = take (length l - Z.to_nat (- stop)) l.
Proof.
  intros H. unfold slice_to. rewrite decide_False by lia. f_equal. lia.
Qed.

Lemma slice_to_all {A} (l : list A) (stop : Z) :
  Z.of_nat (length l) ≤ stop → slice_to l stop = l.
Proof.
  intros H. rewrite slice_to_nonneg by lia. apply take_ge. lia.
Qed.

Lemma remainder_of_app_bits (self : MidiEncoder) (ns1 ns2 : list Z) (k : nat) :
  (0 < pattern_length self)%nat →
  length ns1 = (k * pattern_length self)%nat →
  remainder_of self ns1 = None
  ∧ bits <$> remainder_of self (ns1 ++ ns2) = bits <$> remainder_of self ns2.
Proof.
  intros Hpos Hlen. destruct (leftover_app self ns1 ns2 k Hpos Hlen) as [H1 H2].
  unfold remainder_of. rewrite H1, H2. split; [done|].
  by destruct (leftover self ns2).
Qed.

(** ** The properties *)

(** X1. The events of a call are the pairs of its full cycles, in the
    order of the input, and each pair is computed from the nibbles of its
    own cycle alone: a kind gets the shift-and-or merge of the nibbles at
    its positions, and a cycle that lacks a kind gives no pair. *)
Theorem X1_events_per_cycle (self : MidiEncoder) (ns : list Z) :
  valid_pattern (pattern self) → Forall is_Int4 ns → ns ≠ [] →
  ∃ remainder st,
    encode_chunk self ns
    = (Ok (omap (cycle_pair self) (cycle_list self ns), remainder), st).
Proof.
  intros Hv Hns Hne. eexists _, _. by apply encode_chunk_cycles.
Qed.

Lemma X1_events_per_cycle_witness :
  ∃ remainder st,
    encode_chunk cnvtll thirteen_for_cnvtll
    = (Ok (omap (cycle_pair cnvtll) (cycle_list cnvtll thirteen_for_cnvtll),
           remainder), st).
Proof.
  apply (X1_events_per_cycle cnvtll thirteen_for_cnvtll).
  - solve_valid_pattern.
  - unfold thirteen_for_cnvtll. solve_Int4.
  - discriminate.
Defined.

(** X2. A pattern that names all five kinds yields exactly one event pair
    per full cycle, [len(nibbles) // len(pattern)] pairs; a pattern that
    lacks a kind never yields an event, whatever the input. *)
Theorem X2_event_count (self : MidiEncoder) (ns : list Z) :
  valid_pattern (pattern self) → Forall is_Int4 ns → ns ≠ [] →
  ∃ messages remainder,
    (encode_chunk self ns).1 = Ok (messages, remainder)
    ∧ ((∀ t, NibbleTarget_value t ∈ chars (pattern self)) →
       length messages = (length ns / length (chars (pattern self)))%nat)
    ∧ (∀ t, NibbleTarget_value t ∉ chars (pattern self) → messages = []).
Proof.
  intros Hv Hns Hne. rewrite encode_chunk_cycles by done.
  eexists _, _. split; [done|].
  destruct (cycle_pairs_count self ns Hv) as [Hall Hnone]. split.
  - intros Hin. apply Hall. intros t. by apply kinds_elem.
  - intros t Ht. apply (Hnone t). by rewrite kinds_elem.
Qed.

Lemma X2_event_count_witness :
  ∃ messages remainder,
    (encode_chunk cnvt ten_for_cnvtl).1 = Ok (messages, remainder)
    ∧ ((∀ t, NibbleTarget_value t ∈ chars (pattern cnvt)) →
       length messages = (length ten_for_cnvtl / length (chars (pattern cnvt)))%nat)
    ∧ messages = [].
Proof.
  destruct (X2_event_count cnvt ten_for_cnvtl) as (messages & remainder & Hrun & Hall & Hnone).
  - solve_valid_pattern.
  - unfold ten_for_cnvtl. solve_Int4.
  - discriminate.
  - exists messages, remainder. split; [exact Hrun|]. split; [exact Hall|].
    apply (Hnone LENGTH). apply (bool_decide_unpack _). vm_compute. exact I.
Defined.

(** X3. Cutting the input at a cycle boundary changes no event: the
    events of a call on [ns1 ++ ns2], with [ns1] a whole number of cycles,
    are those of a call on [ns1] followed by those of a call on [ns2]; the
    first call has no Remainder and the bits of the other two agree. *)
Theorem X3_split_at_cycle_boundary (self : MidiEncoder) (ns1 ns2 : list Z) (k : nat) :
  valid_pattern (pattern self) → Forall is_Int4 ns1 → Forall is_Int4 ns2 →
  ns1 ≠ [] → ns2 ≠ [] →
  length ns1 = (k * length (chars (pattern self)))%nat →
  ∃ messages1 messages2 remainder2 remainder,
    (encode_chunk self ns1).1 = Ok (messages1, None)
    ∧ (encode_chunk self ns2).1 = Ok (messages2, remainder2)
    ∧ (encode_chunk self (ns1 ++ ns2)).1 = Ok (messages1 ++ messages2, remainder)
    ∧ bits <$> remainder = bits <$> remainder2.
Proof.
  intros Hv Hns1 Hns2 Hne1 Hne2 Hlen.
  pose proof (pattern_length_pos self Hv) as Hpos.
  destruct (remainder_of_app_bits self ns1 ns2 k Hpos Hlen) as [Hr1 Hr].
  assert (Forall is_Int4 (ns1 ++ ns2)) as Hns by (by apply Forall_app).
  assert (ns1 ++ ns2 ≠ []) as Hne by (by intros [? _]%app_eq_nil).
  rewrite !encode_chunk_cycles by done.
  rewrite (cycle_list_app self ns1 ns2 k Hpos Hlen), omap_app, Hr1.
  by eexists _, _, _, _.
Qed.

Lemma X3_split_at_cycle_boundary_witness :
  ∃ messages1 messages2 remainder2 remainder,
    (encode_chunk cnvtl [0; 3; 12; 4; 0]).1 = Ok (messages1, None)
    ∧ (encode_chunk cnvtl eight_for_cnvtl).1 = Ok (messages2, remainder2)
    ∧ (encode_chunk cnvtl ([0; 3; 12; 4; 0] ++ eight_for_cnvtl)).1
      = Ok (messages1 ++ messages2, remainder)
    ∧ bits <$> remainder = bits <$> remainder2.
Proof.
  apply (X3_split_at_cycle_boundary cnvtl [0; 3; 12; 4; 0] eight_for_cnvtl 1).
  - solve_valid_pattern.
  - solve_Int4.
  - unfold eight_for_cnvtl. solve_Int4.
  - discriminate.
  - discriminate.
  - reflexivity.
Defined.

(** X4. On a non-empty deque shorter than the pattern a call makes no
    event, returns all the nibbles as the bits of a Remainder with
    pattern_position 0, and leaves the deque as it was. *)
Theorem X4_short_input (self : MidiEncoder) (ns : list Z) :
  valid_pattern (pattern self) → ns ≠ [] →
  (length ns < length (chars (pattern self)))%nat →
  encode_chunk self ns
  = (Ok ([], Some (mkRemainder (remainder_bits ns) 0)), mkState self ns).
Proof. apply encode_chunk_short. Qed.

Lemma X4_short_input_witness :
  encode_chunk cnvtl [0; 12; 4]
  = (Ok ([], Some (mkRemainder (remainder_bits [0; 12; 4]) 0)),
     mkState cnvtl [0; 12; 4]).
Proof.
  apply (X4_short_input cnvtl [0; 12; 4]).
  - solve_valid_pattern.
  - discriminate.
  - vm_compute. lia.
Defined.

(** X5. Every event pair a call returns is a note_on and a note_off on the
    same channel and note, with channel in 0..15, note and velocity in
    0..127, velocity 0 at the end, a non-negative integer start time and
    an end time in (0,1]. *)
Theorem X5_events_well_formed (self : MidiEncoder) (ns : list Z)
    (messages : list (Message * Message)) (remainder : option Remainder)
    (st : call_state) :
  valid_pattern (pattern self) → Forall is_Int4 ns →
  encode_chunk self ns = (Ok (messages, remainder), st) →
  Forall well_formed_pair messages.
Proof.
  intros Hv Hns Hrun.
  apply encode_chunk_messages in Hrun as (_ & Hmsgs & _ & _); [|done].
  rewrite create_pairs_cycles in Hmsgs by done. injection Hmsgs as <-.
  by apply encode_chunk_well_formed.
Qed.

Lemma X5_events_well_formed_witness :
  Forall well_formed_pair
    [(mkMessage note_on 0 3 12 4, mkMessage note_off 0 3 0 1);
     (mkMessage note_on 1 6 4 2, mkMessage note_off 1 6 0 0.75)].
Proof.
  apply (X5_events_well_formed cnvtl ten_for_cnvtl _ None (mkState cnvtl [])).
  - solve_valid_pattern.
  - unfold ten_for_cnvtl. solve_Int4.
  - vm_compute. reflexivity.
Defined.

(** X6. A call of a constructed encoder always ends; besides
    NibbleProcessingError on the empty deque the only exception is the
    ValueError of [mido.Message], and only when some nibble is negative:
    on non-negative values, 16 and above included, the call returns. *)
Theorem X6_only_value_error (self : MidiEncoder) (ns : list Z) :
  valid_pattern (pattern self) →
  (encode_chunk self ns).1 ≠ Diverge
  ∧ (∀ e, (encode_chunk self ns).1 = Raise e →
       (e = NibbleProcessingError ∧ ns = [])
       ∨ (e = ValueError ∧ Exists (λ n, n < 0) ns))
  ∧ (ns ≠ [] → Forall (λ n, 0 ≤ n) ns →
     ∃ messages remainder, (encode_chunk self ns).1 = Ok (messages, remainder)).
Proof.
  intros Hv. destruct ns as [|n ns].
  { split; [done|]. split; [|done]. intros e [= <-]. by left. }
  assert (n :: ns ≠ []) as Hne by done.
  destruct (encode_chunk_benign self (n :: ns) Hv Hne) as [[res Hres]|Hval].
  - rewrite Hres. split; [done|]. split; [done|]. intros _ _.
    destruct res as [messages remainder]. by eexists _, _.
  - rewrite Hval. split; [done|].
    assert (¬ Forall (λ n, 0 ≤ n) (n :: ns)) as Hneg.
    { intros Hall.
      destruct (encode_chunk_nonneg_returns self (n :: ns) Hv Hall Hne)
        as (messages & remainder & Hok).
      rewrite Hval in Hok. discriminate. }
    split.
    + intros e [= <-]. right. split; [done|].
      apply not_Forall_Exists in Hneg; [|apply _].
      eapply Exists_impl; [exact Hneg|]. simpl. intros x Hx. lia.
    + intros _ Hall. by destruct Hneg.
Qed.

Lemma X6_only_value_error_witness :
  (encode_chunk cnvtl [0; 200; 300; 4; 77]).1 ≠ Diverge
  ∧ ∃ messages remainder,
      (encode_chunk cnvtl [0; 200; 300; 4; 77]).1 = Ok (messages, remainder).
Proof.
  destruct (X6_only_value_error cnvtl [0; 200; 300; 4; 77]) as (Hd & _ & Hret).
  - solve_valid_pattern.
  - split; [exact Hd|]. apply Hret; [discriminate|].
    repeat constructor; lia.
Defined.

(** X7. A Remainder of a call has four characters "0" or "1" per
    leftover nibble, [4 * (len(nibbles) % len(pattern))] in all and at
    least four, and a pattern_position below the pattern length. *)
Theorem X7_remainder_shape (self : MidiEncoder) (ns : list Z)
    (messages : list (Message * Message)) (r : Remainder) (st : call_state) :
  valid_pattern (pattern self) → Forall is_Int4 ns →
  encode_chunk self ns = (Ok (messages, Some r), st) →
  String.length (bits r)
  = (4 * (length ns `mod` length (chars (pattern self))))%nat
  ∧ (0 < length ns `mod` length (chars (pattern self)))%nat
  ∧ Forall is_bit (chars (bits r))
  ∧ (pattern_position r < length (chars (pattern self)))%nat.
Proof.
  intros Hv Hns Hrun.
  pose proof (pattern_length_pos self Hv) as Hpos.
  apply encode_chunk_messages in Hrun as (_ & _ & Hrem & _); [|done].
  symmetry in Hrem. apply remainder_of_bits in Hrem as (-> & -> & Htail).
  assert (Forall is_Int4 (leftover self ns)) as Hleft
    by (by apply Forall_drop).
  pose proof (leftover_length self ns Hpos) as Hlen.
  fold (pattern_length self).
  split; [by rewrite remainder_bits_length, Hlen|]. split.
  - rewrite <- Hlen. destruct (leftover self ns); [done | simpl; lia].
  - split; [by apply remainder_bits_alphabet|].
    apply Nat.mod_upper_bound. lia.
Qed.

Lemma X7_remainder_shape_witness :
  String.length (bits (mkRemainder "001100010010" 0))
  = (4 * (length eight_for_cnvtl `mod` length (chars (pattern cnvtl))))%nat
  ∧ (0 < length eight_for_cnvtl `mod` length (chars (pattern cnvtl)))%nat
  ∧ Forall is_bit (chars (bits (mkRemainder "001100010010" 0)))
  ∧ (pattern_position (mkRemainder "001100010010" 0)
     < length (chars (pattern cnvtl)))%nat.
Proof.
  apply (X7_remainder_shape cnvtl eight_for_cnvtl
           [(mkMessage note_on 0 3 12 4, mkMessage note_off 0 3 0 1)]
           (mkRemainder "001100010010" 0) (mkState cnvtl [3; 1; 2])).
  - solve_valid_pattern.
  - unfold eight_for_cnvtl. solve_Int4.
  - vm_compute. reflexivity.
Defined.

(** X8. The bits of a Remainder determine the leftover nibbles: two
    sequences of 4-bit nibbles with the same bit string are equal. *)
Theorem X8_remainder_bits_injective (ns1 ns2 : list Z) :
  Forall is_Int4 ns1 → Forall is_Int4 ns2 →
  remainder_bits ns1 = remainder_bits ns2 → ns1 = ns2.
Proof. apply remainder_bits_inj. Qed.

Lemma X8_remainder_bits_injective_witness :
  [3; 1; 2] = [3; 1; 2].
Proof.
  apply (X8_remainder_bits_injective [3; 1; 2] [3; 1; 2]).
  - solve_Int4.
  - solve_Int4.
  - reflexivity.
Defined.

(** X9. The characters [__init__] accepts are exactly the values of
    [NibbleTarget]: [NibbleTarget(ch)] gives the kind whose value is [ch],
    and raises ValueError exactly on the characters outside "cnvtl". *)
Theorem X9_pattern_symbols_are_kinds (ch : ascii) :
  (∀ t, NibbleTarget_of ch = Ok t ↔ ch = NibbleTarget_value t)
  ∧ (ch ∈ valid_chars ↔ ∃ t, NibbleTarget_of ch = Ok t)
  ∧ (ch ∉ valid_chars ↔ NibbleTarget_of ch = Raise ValueError).
Proof.
  split; [|split].
  - intros t. split; [apply NibbleTarget_of_value|]. intros ->. by destruct t.
  - split; [apply valid_char_kind|]. intros [t Ht]. by eapply NibbleTarget_of_valid.
  - split.
    + intros Hni. unfold NibbleTarget_of.
      repeat case_decide; subst; try done;
        destruct Hni; apply (bool_decide_unpack _); vm_compute; exact I.
    + intros Hraise Hin. apply valid_char_kind in Hin as [t Ht]. congruence.
Qed.

(** X10. [split_byte_to_nibbles] returns two values in [0,15], the high
    nibble first, with [16 * upper + lower = value mod 256], for every
    integer argument. *)
Theorem X10_split_byte (value : Z) :
  is_Int4 (split_byte_to_nibbles value).1
  ∧ is_Int4 (split_byte_to_nibbles value).2
  ∧ 16 * (split_byte_to_nibbles value).1 + (split_byte_to_nibbles value).2
    = value `mod` 256.
Proof. apply split_byte_spec. Qed.

(** X11. [chunk_data] returns 4-bit nibbles only, at most two per byte of
    the input, and loses nothing of the bytes it keeps: joining the
    nibbles two by two gives back the slice [data[:num_chunks * chunk_size]]
    with [num_chunks] capped at [len(data)]. *)
Theorem X11_chunk_data_round_trip (data : list Z) (chunk_size num_chunks : Z) :
  Forall is_Int4 (chunk_data data chunk_size num_chunks)
  ∧ (length (chunk_data data chunk_size num_chunks) ≤ 2 * length data)%nat
  ∧ (Forall is_byte data →
     join_pairs (chunk_data data chunk_size num_chunks)
     = slice_to data (Z.min num_chunks (Z.of_nat (length data)) * chunk_size)).
Proof.
  split; [apply chunk_data_Int4|]. split; [|apply chunk_data_join].
  rewrite chunk_data_length. unfold slice_to.
  case_decide; rewrite length_take; lia.
Qed.

Lemma X11_chunk_data_round_trip_witness :
  join_pairs (chunk_data sample_bytes 4 100)
  = slice_to sample_bytes (Z.min 100 (Z.of_nat (length sample_bytes)) * 4).
Proof.
  apply (proj2 (proj2 (X11_chunk_data_round_trip sample_bytes 4 100))).
  unfold sample_bytes. repeat constructor; unfold is_byte; lia.
Defined.

(** X12. What [chunk_data] keeps of the bytes: everything when
    [num_chunks >= len(data)] and [chunk_size >= 1]; the first
    [min(num_chunks, len(data)) * chunk_size] bytes for non-negative
    arguments; and for a negative [num_chunks] all but the last
    [-num_chunks * chunk_size] bytes. *)
Theorem X12_chunk_data_kept (data : list Z) (chunk_size num_chunks : Z) :
  Forall is_byte data →
  (Z.of_nat (length data) ≤ num_chunks → 1 ≤ chunk_size →
   join_pairs (chunk_data data chunk_size num_chunks) = data)
  ∧ (0 ≤ num_chunks → 0 ≤ chunk_size →
     join_pairs (chunk_data data chunk_size num_chunks)
     = take (Z.to_nat (Z.min num_chunks (Z.of_nat (length data)) * chunk_size)) data)
  ∧ (num_chunks < 0 → 0 < chunk_size →
     join_pairs (chunk_data data chunk_size num_chunks)
     = take (length data - Z.to_nat (- num_chunks * chunk_size)) data).
Proof.
  intros Hb. rewrite chunk_data_join by done. split; [|split].
  - intros Hn Hc. rewrite Z.min_r by lia. apply slice_to_all. nia.
  - intros Hn Hc. apply slice_to_nonneg. apply Z.mul_nonneg_nonneg; lia.
  - intros Hn Hc. rewrite Z.min_l by lia. rewrite slice_to_neg by nia.
    do 2 f_equal. lia.
Qed.

Lemma X12_chunk_data_kept_witness :
  join_pairs (chunk_data sample_bytes 4 100) = sample_bytes
  ∧ join_pairs (chunk_data sample_bytes 4 (-1))
    = take (length sample_bytes - Z.to_nat (- (-1) * 4)) sample_bytes.
Proof.
  assert (Forall is_byte sample_bytes) as Hb
    by (unfold sample_bytes; repeat constructor; unfold is_byte; lia).
  split.
  - apply (proj1 (X12_chunk_data_kept sample_bytes 4 100 Hb)); vm_compute; congruence.
  - apply (proj2 (proj2 (X12_chunk_data_kept sample_bytes 4 (-1) Hb))); lia.
Defined.

(** X13. The nibbles [chunk_data] makes from any bytes are accepted by
    every constructed encoder: unless there is none, which raises
    NibbleProcessingError, [encode_chunk] returns on them, with
    well-formed events. *)
Theorem X13_chunked_bytes_encode (self : MidiEncoder) (data : list Z)
    (chunk_size num_chunks : Z) :
  valid_pattern (pattern self) →
  (chunk_data data chunk_size num_chunks = []
   ∧ (encode_chunk self (chunk_data data chunk_size num_chunks)).1
     = Raise NibbleProcessingError)
  ∨ (chunk_data data chunk_size num_chunks ≠ []
     ∧ ∃ messages remainder,
         (encode_chunk self (chunk_data data chunk_size num_chunks)).1
         = Ok (messages, remainder)
         ∧ Forall well_formed_pair messages).
Proof.
  intros Hv. destruct (chunk_data data chunk_size num_chunks) as [|n ns] eqn:E.
  - left. by split.
  - right. split; [done|]. rewrite <- E.
    assert (chunk_data data chunk_size num_chunks ≠ []) as Hne by (by rewrite E).
    rewrite encode_chunk_cycles; [|done|apply chunk_data_Int4|done].
    eexists _, _. split; [done|].
    apply encode_chunk_well_formed; [done|apply chunk_data_Int4].
Qed.

Lemma X13_chunked_bytes_encode_witness :
  (chunk_data sample_bytes 4 100 = []
   ∧ (encode_chunk cnvtl (chunk_data sample_bytes 4 100)).1
     = Raise NibbleProcessingError)
  ∨ (chunk_data sample_bytes 4 100 ≠ []
     ∧ ∃ messages remainder,
         (encode_chunk cnvtl (chunk_data sample_bytes 4 100)).1
         = Ok (messages, remainder)
         ∧ Forall well_formed_pair messages).
Proof.
  apply (X13_chunked_bytes_encode cnvtl sample_bytes 4 100).
  solve_valid_pattern.
Defined.
